(** * gitvisualizer: large-history retrieval and incremental graph assembly

    A shallow embedding of the commit retrieval pipeline of the
    gitvisualizer application and the verification of its specification:

    - [GitService] and [Routes]: the backend size classifier, the paginated
      fetch, the chunk generator and the server-sent-event endpoint
      (backend/src/services/git.service.ts, backend/src/routes/repository.routes.ts);
    - [RepositoryStore]: the client store that consumes the event stream
      (frontend/src/store/repositoryStore.ts);
    - [LayoutEngine]: the commit graph layout (frontend/src/utils/layoutEngine.ts).

    JavaScript numbers that take part in floating-point arithmetic are
    binary64 values ([PrimFloat.float]); counts and offsets, which the code
    only adds and compares, are integers. *)

(** Beside these, the development covers the rest of the retrieval path
    and what is drawn from it:

    - [FullLoad]: the full load, the commit lookup and the JSON routes;
    - [StoreActions]: the actions of the client store, as state
      transformers that record the requests they send;
    - [TagParsing]: the reading of [git show-ref --tags];
    - [ActivityHeatmap] and [GraphCanvas]: the grid of the activity
      heatmap and the filtering, highlighting and selection of the graph
      canvas. *)

From Stdlib Require Import ZArith Floats.PrimFloat Floats.FloatOps Floats.SpecFloat.
From Stdlib Require Import Numbers.Cyclic.Int63.Uint63.
From Stdlib Require Import Strings.Ascii Strings.String Sorting.Sorted.
From Equations Require Import Equations.
From Equations.Prop Require Import Logic.
From stdpp Require Import gmap strings list.
From stdpp Require Import pretty.

#[local] Open Scope string_scope.
#[local] Open Scope list_scope.
#[local] Open Scope nat_scope.

(** ** JavaScript primitives used by the sources *)

Module Js.

(** An integer as a binary64 number (exact up to 2^53 in absolute value). *)
Definition num_of_Z (z : Z) : float :=
  if (z <? 0)%Z then PrimFloat.opp (PrimFloat.of_uint63 (Uint63.of_Z (- z)))
  else PrimFloat.of_uint63 (Uint63.of_Z z).

Definition num_of_nat (n : nat) : float := num_of_Z (Z.of_nat n).

(** [Math.round]: the closest integer, ties towards +Infinity; NaN,
    infinities and zeros are returned unchanged, and a result of zero keeps
    the sign of the argument. *)
Definition Math_round (x : float) : float :=
  match Prim2SF x with
  | S754_finite s m e =>
      if (0 <=? e)%Z then x
      else
        let k := (- e)%Z in
        let sm := if s then (- Z.pos m)%Z else Z.pos m in
        let n := ((2 * sm + 2 ^ k) / 2 ^ (k + 1))%Z in
        if (n =? 0)%Z then (if s then PrimFloat.opp PrimFloat.zero else PrimFloat.zero)
        else num_of_Z n
  | _ => x
  end.

(** [Math.min] of two arguments: NaN if either is NaN, otherwise the
    smaller one, with -0 smaller than +0. *)
Definition Math_min (a b : float) : float :=
  if PrimFloat.is_nan a || PrimFloat.is_nan b then PrimFloat.nan
  else if PrimFloat.ltb a b then a
  else if PrimFloat.ltb b a then b
  else if PrimFloat.is_zero a && PrimFloat.get_sign a then a
  else b.

(** [s.split(c)] for a one-character separator: never the empty array. *)
Fixpoint split (sep : ascii) (s : string) : list string :=
  match s with
  | EmptyString => [EmptyString]
  | String a s' =>
      if Ascii.eqb a sep then EmptyString :: split sep s'
      else match split sep s' with
           | piece :: pieces => String a piece :: pieces
           | [] => [String a EmptyString]
           end
  end.

(** [Boolean(s)] on a string: the empty string is the only falsy one. *)
Definition truthy (s : string) : bool := negb (String.eqb s "").

Fixpoint trimStart (s : string) : string :=
  match s with
  | String a s' => if Ascii.is_space a then trimStart s' else s
  | EmptyString => EmptyString
  end.

(** [s.trim()], for the ASCII white space characters. *)
Definition trim (s : string) : string :=
  String.rev (trimStart (String.rev (trimStart s))).

Definition startsWith (s pre : string) : bool := String.prefix pre s.

(** [s.replace(pre, '')] when [s] starts with [pre]: the prefix is the
    first occurrence, so it is the one removed. *)
Definition dropPrefix (pre s : string) : string :=
  String.substring (String.length pre) (String.length s - String.length pre) s.

(** [xs.pop()] as an expression: the last element, if any. *)
Definition last_opt {A} (xs : list A) : option A := last xs.

End Js.

(** ** Exceptions *)

(** The outcome of an awaited call: a value, or a thrown [Error] with its message. *)
Inductive result (A : Type) : Type :=
| Ok (a : A)
| Throw (message : string).
Arguments Ok {A} a.
Arguments Throw {A} message.

#[global] Instance result_ret : MRet result := fun A a => Ok a.

#[global] Instance result_bind : MBind result := fun A B k m =>
  match m with
  | Ok a => k a
  | Throw e => Throw e
  end.

(** [try { m } catch { return fallback }] *)
Definition catch_default {A} (m : result A) (fallback : A) : A :=
  match m with
  | Ok a => a
  | Throw _ => fallback
  end.

(** ** Data model (the interfaces shared by backend and frontend) *)

Record Author := { author_name : string; author_email : string }.

Inductive RefType := branch | tag | remote.

Record RefInfo := { ref_name : string; ref_type : RefType; isHead : bool }.

Record Commit := {
  hash : string;
  shortHash : string;
  message : string;
  body : string;
  author : Author;
  date : string;
  parents : list string;
  refs : list RefInfo
}.

Record Branch := {
  branch_name : string;
  branch_commit : string;
  isRemote : bool;
  branch_isHead : bool
}.

Record Tag := { tag_name : string; tag_commit : string }.

Inductive LoadMode := full | paginated | simplified.

Record RepoStats := {
  totalCommits : Z;
  isLargeRepo : bool;
  recommendedMode : LoadMode
}.

Record RepositoryMetadata := {
  md_path : string;
  md_name : string;
  md_currentBranch : string;
  md_branches : list Branch;
  md_tags : list Tag;
  md_stats : RepoStats
}.

Record PaginatedCommits := {
  commits : list Commit;
  total : Z;
  hasMore : bool
}.

(** One element yielded by the chunk generator. *)
Record Chunk := {
  chunk_commits : list Commit;
  progress : float;
  chunk_total : Z
}.

(** ** The repository as seen through simple-git

    The version-control commands are an external collaborator. A repository
    handle is modelled by what each command answers: a value, or a thrown
    error. [history fp] is the enumeration of
    [git log --all --date-order] (with [--first-parent] when [fp]); a
    [git.log] call with [--max-count=n] and [--skip=k] returns the [n]
    entries that follow the first [k] of it, unless [log_error] makes that
    very call fail. [rev_list_count] is the parsed output of
    [git rev-list --all --count]. The repository does not change while a
    request is served. *)

Record LogEntry := {
  entry_hash : string;
  entry_shortHash : string;
  entry_message : string;
  entry_body : string;
  entry_authorName : string;
  entry_authorEmail : string;
  entry_date : string;
  entry_parents : string;
  entry_refs : string
}.

Record GitRepo := {
  repoPath : string;
  checkIsRepo : result bool;
  git_branch : result (list Branch);
  show_ref_tags : result (list Tag);
  revparse_head : result string;
  rev_list_count : result Z;
  history : bool -> list LogEntry;
  log_error : bool -> nat -> nat -> option string
}.

Module GitService.

Definition parseRef (part : string) : list RefInfo :=
  if Js.startsWith part "HEAD -> " then
    [ {| ref_name := Js.dropPrefix "HEAD -> " part; ref_type := branch; isHead := true |} ]
  else if String.eqb part "HEAD" then []
  else if Js.startsWith part "tag: " then
    [ {| ref_name := Js.dropPrefix "tag: " part; ref_type := tag; isHead := false |} ]
  else if Js.startsWith part "origin/" then
    [ {| ref_name := part; ref_type := remote; isHead := false |} ]
  else if Js.truthy part then
    [ {| ref_name := part; ref_type := branch; isHead := false |} ]
  else [].

Definition parseRefs (refsString : string) : list RefInfo :=
  if negb (Js.truthy refsString) || String.eqb (Js.trim refsString) "" then []
  else flat_map parseRef (map Js.trim (Js.split "," refsString)).

(** The mapping from a log entry to a [Commit], shared by every log reader. *)
Definition toCommit (entry : LogEntry) : Commit :=
  {| hash := entry_hash entry;
     shortHash := entry_shortHash entry;
     message := entry_message entry;
     body := entry_body entry;
     author := {| author_name := entry_authorName entry;
                  author_email := entry_authorEmail entry |};
     date := entry_date entry;
     parents := if Js.truthy (entry_parents entry)
                then filter (fun p => Is_true (Js.truthy p)) (Js.split " " (entry_parents entry))
                else [];
     refs := parseRefs (entry_refs entry) |}.

(** [git.log({..., maxCount, '--skip': skip})] *)
Definition git_log (r : GitRepo) (firstParent : bool) (maxCount skip : nat)
  : result (list LogEntry) :=
  match log_error r firstParent maxCount skip with
  | Some e => Throw e
  | None => Ok (take maxCount (drop skip (history r firstParent)))
  end.

Definition validateRepository (r : GitRepo) : bool :=
  catch_default (checkIsRepo r) false.

Definition getBranches (r : GitRepo) : result (list Branch) := git_branch r.

Definition getTags (r : GitRepo) : list Tag := catch_default (show_ref_tags r) [].

Definition getCurrentBranch (r : GitRepo) : string :=
  catch_default (revparse_head r) "HEAD".

Definition getTotalCommitCount (r : GitRepo) : Z :=
  catch_default (rev_list_count r) 0%Z.

Definition LARGE_REPO_THRESHOLD : Z := 10000.
Definition HUGE_REPO_THRESHOLD : Z := 100000.

(** The size classifier: the part of [getRepoStats] after the count. *)
Definition classify (totalCommits : Z) : RepoStats :=
  let recommendedMode :=
    if (HUGE_REPO_THRESHOLD <? totalCommits)%Z then simplified
    else if (LARGE_REPO_THRESHOLD <? totalCommits)%Z then paginated
    else full in
  {| totalCommits := totalCommits;
     isLargeRepo := (LARGE_REPO_THRESHOLD <? totalCommits)%Z;
     recommendedMode := recommendedMode |}.

Definition getRepoStats (r : GitRepo) : RepoStats :=
  classify (getTotalCommitCount r).

(** [repoPath.split('/').filter(Boolean).pop() || 'repository'] *)
Definition repoName (path : string) : string :=
  match Js.last_opt (filter (fun p => Is_true (Js.truthy p)) (Js.split "/" path)) with
  | Some name => name
  | None => "repository"
  end.

(** [Promise.all] rejects as soon as one member rejects; [getBranches]
    is the only member that can. *)
Definition getRepositoryMetadata (r : GitRepo) : result RepositoryMetadata :=
  branches ← getBranches r;
  let tags := getTags r in
  let currentBranch := getCurrentBranch r in
  let stats := getRepoStats r in
  mret {| md_path := repoPath r;
          md_name := repoName (repoPath r);
          md_currentBranch := currentBranch;
          md_branches := branches;
          md_tags := tags;
          md_stats := stats |}.

Record PaginationOptions := {
  opt_maxCount : option nat;
  opt_skip : option nat;
  opt_firstParent : option bool
}.

Definition getCommitsPaginated (r : GitRepo) (options : PaginationOptions)
  : result PaginatedCommits :=
  let maxCount := default 500 (opt_maxCount options) in
  let skip := default 0 (opt_skip options) in
  let firstParent := default false (opt_firstParent options) in
  log ← git_log r firstParent (maxCount + 1) skip;
  let total := getTotalCommitCount r in
  let hasMore := bool_decide (maxCount < length log) in
  let commits := map toCommit (take maxCount log) in
  mret {| commits := commits; total := total; hasMore := hasMore |}.

(** What a run of the chunk generator produces: the chunks it yields, in
    order, and the error it throws if it does not return normally. *)
Record Stream := { yielded : list Chunk; thrown : option string }.

Definition yield (c : Chunk) (rest : Stream) : Stream :=
  {| yielded := c :: yielded rest; thrown := thrown rest |}.

(** [Math.min(100, Math.round(((skip + result.commits.length) / total) * 100))] *)
Definition progressOf (loaded : nat) (total : Z) : float :=
  Js.Math_min 100 (Js.Math_round ((Js.num_of_nat loaded / Js.num_of_Z total) * 100)).

Definition pageOptions (chunkSize skip : nat) (firstParent : bool) : PaginationOptions :=
  {| opt_maxCount := Some chunkSize; opt_skip := Some skip; opt_firstParent := Some firstParent |}.

(** The chunk yielded by one iteration of the loop. *)
Definition chunkOf (result : PaginatedCommits) (skip : nat) (total : Z) : Chunk :=
  {| chunk_commits := commits result;
     progress := progressOf (skip + length (commits result)) total;
     chunk_total := total |}.

(** The range the stream announces for a progress value: 0 to 100. *)
Definition validProgress (p : float) : bool := PrimFloat.leb 0 p && PrimFloat.leb p 100.

(** The exit test of the loop. *)
Definition lastPage (result : PaginatedCommits) : bool :=
  negb (hasMore result) || bool_decide (length (commits result) = 0).

(** The [while (true)] loop of [streamCommits], entered with the current
    value of [skip]. Every iteration that does not leave the loop moves
    [skip] closer to the end of the history. *)
Equations? streamCommits_from (r : GitRepo) (chunkSize : nat) (firstParent : bool)
    (total : Z) (skip : nat) : Stream
    by wf (length (history r firstParent) - skip) lt :=
  streamCommits_from r chunkSize firstParent total skip
    with inspect (getCommitsPaginated r (pageOptions chunkSize skip firstParent)) := {
    | exist _ (Throw e) _ => {| yielded := []; thrown := Some e |}
    | exist _ (Ok result) Hpage with inspect (lastPage result) := {
        | exist _ true _ =>
            yield (chunkOf result skip total) {| yielded := []; thrown := None |}
        | exist _ false Hmore =>
            yield (chunkOf result skip total)
                  (streamCommits_from r chunkSize firstParent total (skip + chunkSize)) } }.
Proof.
  unfold getCommitsPaginated, git_log, pageOptions in Hpage; simpl in Hpage.
  destruct (log_error r firstParent (chunkSize + 1) skip); simplify_eq/=.
  injection Hpage as <-.
  unfold lastPage in Hmore; simpl in Hmore.
  apply orb_false_elim in Hmore as [Hhas Hlen].
  apply negb_false_iff, bool_decide_eq_true in Hhas.
  apply bool_decide_eq_false in Hlen.
  rewrite length_map, !length_take, length_drop in *. lia.
Qed.

(** [streamCommits(repoPath, { chunkSize, firstParent })] *)
Definition streamCommits (r : GitRepo) (chunkSize : option nat) (firstParent : option bool)
  : Stream :=
  let chunkSize := default 500 chunkSize in
  let firstParent := default false firstParent in
  let total := getTotalCommitCount r in
  streamCommits_from r chunkSize firstParent total 0.

End GitService.

(** ** The streaming endpoint (POST /repository/stream) *)

Module Routes.

Inductive SseEvent :=
| metadata_event (metadata : RepositoryMetadata)
| commits_event (chunk : Chunk)
| complete_event
| error_event (error : string).

(** The Express response object, as far as the handler drives it. *)
Record Response := {
  statusCode : option nat;
  jsonBody : option string;
  headers : list (string * string);
  written : list SseEvent;
  ended : bool
}.

Definition freshResponse : Response :=
  {| statusCode := None; jsonBody := None; headers := []; written := []; ended := false |}.

(** Handler code: it updates the response and may throw. *)
Definition Handler (A : Type) : Type := Response -> result A * Response.

Definition pure {A} (a : A) : Handler A := fun res => (Ok a, res).

Definition andThen {A B} (m : Handler A) (k : A -> Handler B) : Handler B :=
  fun res =>
    match m res with
    | (Ok a, res') => k a res'
    | (Throw e, res') => (Throw e, res')
    end.

Definition await {A} (m : result A) : Handler A := fun res => (m, res).

Definition tryCatch (body : Handler unit) (handler : string -> Handler unit) : Handler unit :=
  fun res =>
    match body res with
    | (Ok u, res') => (Ok u, res')
    | (Throw e, res') => handler e res'
    end.

Notation "'do' x <- m ; k" := (andThen m (fun x => k))
  (at level 10, x name, m at level 100, k at level 200).
Notation "m ;; k" := (andThen m (fun _ => k))
  (at level 100, k at level 200, right associativity).

(** [res.status(code).json({ error })] *)
Definition res_status_json (code : nat) (error : string) : Handler unit :=
  fun res => (Ok (), {| statusCode := Some code; jsonBody := Some error;
                        headers := headers res; written := written res; ended := true |}).

Definition res_setHeader (name value : string) : Handler unit :=
  fun res => (Ok (), {| statusCode := statusCode res; jsonBody := jsonBody res;
                        headers := headers res ++ [(name, value)];
                        written := written res; ended := ended res |}).

(** [res.write(`event: ...\ndata: ...\n\n`)] *)
Definition res_write (ev : SseEvent) : Handler unit :=
  fun res => (Ok (), {| statusCode := statusCode res; jsonBody := jsonBody res;
                        headers := headers res;
                        written := written res ++ [ev]; ended := ended res |}).

Definition res_end : Handler unit :=
  fun res => (Ok (), {| statusCode := statusCode res; jsonBody := jsonBody res;
                        headers := headers res; written := written res; ended := true |}).

Fixpoint forEach (chunks : list Chunk) (body : Chunk -> Handler unit) : Handler unit :=
  match chunks with
  | [] => pure ()
  | chunk :: rest => body chunk;; forEach rest body
  end.

(** [for await (const chunk of gen) body]: the body runs on every chunk the
    generator yields; an error thrown by the generator leaves the loop. *)
Definition forAwait (gen : GitService.Stream) (body : Chunk -> Handler unit) : Handler unit :=
  forEach (GitService.yielded gen) body;;
  match GitService.thrown gen with
  | Some e => await (Throw e)
  | None => pure ()
  end.

(** The query string: [chunkSize] as [parseInt] reads it ([None] for NaN),
    [firstParent] as the raw text. The handler lets a negative size
    through to [streamCommits] and to git, where it has a meaning of its
    own; such requests are left out of the model, and the statements about
    the endpoint are about the requests of this type. *)
Record Query := { q_chunkSize : option nat; q_firstParent : option string }.

(** [parseInt(req.query.chunkSize) || 500] *)
Definition chunkSizeOf (q : Query) : nat :=
  match q_chunkSize q with
  | Some (S n) => S n
  | _ => 500
  end.

(** [req.query.firstParent === 'true'] *)
Definition firstParentOf (q : Query) : bool :=
  match q_firstParent q with
  | Some s => String.eqb s "true"
  | None => false
  end.

Definition stream (r : GitRepo) (q : Query) : Handler unit :=
  tryCatch
    (let chunkSize := chunkSizeOf q in
     let firstParent := firstParentOf q in
     do isValid <- await (Ok (GitService.validateRepository r));
     if negb isValid then res_status_json 400 "Not a valid git repository"
     else
       res_setHeader "Content-Type" "text/event-stream";;
       res_setHeader "Cache-Control" "no-cache";;
       res_setHeader "Connection" "keep-alive";;
       res_setHeader "X-Accel-Buffering" "no";;
       do metadata <- await (GitService.getRepositoryMetadata r);
       res_write (metadata_event metadata);;
       forAwait (GitService.streamCommits r (Some chunkSize) (Some firstParent))
                (fun chunk => res_write (commits_event chunk));;
       res_write complete_event;;
       res_end)
    (fun error => res_write (error_event error);; res_end).

(** The response a request ends with. *)
Definition respond (r : GitRepo) (q : Query) : Response := snd (stream r q freshResponse).

(** The events a request emits, in order. *)
Definition events (r : GitRepo) (q : Query) : list SseEvent := written (respond r q).

(** The headers of an event stream, in the order the handler sets them. *)
Definition sseHeaders : list (string * string) :=
  [("Content-Type", "text/event-stream"); ("Cache-Control", "no-cache");
   ("Connection", "keep-alive"); ("X-Accel-Buffering", "no")].

(** The event that ends the stream after a run of the generator:
    [complete] when it returned, [error] with the message when it threw. *)
Definition closing (gen : GitService.Stream) : SseEvent :=
  match GitService.thrown gen with
  | None => complete_event
  | Some e => error_event e
  end.

Definition isTerminal (ev : SseEvent) : bool :=
  match ev with
  | complete_event | error_event _ => true
  | _ => false
  end.

End Routes.

(** ** The client store (streaming part of [loadRepoWithMode]) *)

Module RepositoryStore.

(** [n.toLocaleString()] depends on the host locale. *)
Class Locale := toLocaleString : Z -> string.

Record Repository := {
  path : string;
  name : string;
  currentBranch : string;
  repo_commits : list Commit;
  branches : list Branch;
  tags : list Tag;
  stats : option RepoStats;
  loadedCommitCount : option nat;
  totalCommitCount : option Z
}.

Record RepositoryState := {
  repository : option Repository;
  isLoading : bool;
  loadingMessage : string;
  loadingProgress : float;
  error : option string;
  selectedCommit : option Commit;
  searchQuery : string;
  repoStats : option RepoStats;
  showLargeRepoWarning : bool;
  pendingPath : option string;
  loadMode : LoadMode;
  abortStream : option nat
}.

(** One streaming load: the store and the [allCommits] array that the
    callbacks of the load close over. *)
Record Session := { allCommits : list Commit; store : RepositoryState }.

(** The session as [loadRepoWithMode] creates it: [allCommits = []]. *)
Definition openSession (st : RepositoryState) : Session :=
  {| allCommits := []; store := st |}.

Definition onMetadata (metadata : RepositoryMetadata) (s : Session) : Session :=
  let st := store s in
  {| allCommits := allCommits s;
     store :=
       {| repository :=
            Some {| path := md_path metadata;
                    name := md_name metadata;
                    currentBranch := md_currentBranch metadata;
                    branches := md_branches metadata;
                    tags := md_tags metadata;
                    repo_commits := [];
                    stats := Some (md_stats metadata);
                    loadedCommitCount := Some 0;
                    totalCommitCount := Some (totalCommits (md_stats metadata)) |};
          isLoading := isLoading st;
          loadingMessage := "Loading commits...";
          loadingProgress := loadingProgress st;
          error := error st;
          selectedCommit := selectedCommit st;
          searchQuery := searchQuery st;
          repoStats := repoStats st;
          showLargeRepoWarning := showLargeRepoWarning st;
          pendingPath := pendingPath st;
          loadMode := loadMode st;
          abortStream := abortStream st |} |}.

Definition onCommits `{Locale} (commits : list Commit) (progress : float) (total : Z)
    (s : Session) : Session :=
  (* allCommits.push(...commits) *)
  let allCommits := allCommits s ++ commits in
  let st := store s in
  {| allCommits := allCommits;
     store :=
       {| repository :=
            match repository st with
            | Some repo =>
                Some {| path := path repo;
                        name := name repo;
                        currentBranch := currentBranch repo;
                        branches := branches repo;
                        tags := tags repo;
                        stats := stats repo;
                        (* [...allCommits]: a copy of the buffer *)
                        repo_commits := allCommits;
                        loadedCommitCount := Some (length allCommits);
                        totalCommitCount := Some total |}
            | None => None
            end;
          loadingProgress := progress;
          loadingMessage :=
            "Loaded " +:+ toLocaleString (Z.of_nat (length allCommits)) +:+ " of "
                      +:+ toLocaleString total +:+ " commits...";
          isLoading := isLoading st;
          error := error st;
          selectedCommit := selectedCommit st;
          searchQuery := searchQuery st;
          repoStats := repoStats st;
          showLargeRepoWarning := showLargeRepoWarning st;
          pendingPath := pendingPath st;
          loadMode := loadMode st;
          abortStream := abortStream st |} |}.

Definition onComplete (s : Session) : Session :=
  let st := store s in
  {| allCommits := allCommits s;
     store :=
       {| isLoading := false;
          loadingProgress := 100;
          loadingMessage := "";
          abortStream := None;
          repository := repository st;
          error := error st;
          selectedCommit := selectedCommit st;
          searchQuery := searchQuery st;
          repoStats := repoStats st;
          showLargeRepoWarning := showLargeRepoWarning st;
          pendingPath := pendingPath st;
          loadMode := loadMode st |} |}.

(** [error] is the message of the [Error] the stream reports. *)
Definition onError (error_message : string) (s : Session) : Session :=
  let st := store s in
  {| allCommits := allCommits s;
     store :=
       {| error := Some error_message;
          isLoading := false;
          loadingProgress := -1;
          loadingMessage := "";
          abortStream := None;
          repository := repository st;
          selectedCommit := selectedCommit st;
          searchQuery := searchQuery st;
          repoStats := repoStats st;
          showLargeRepoWarning := showLargeRepoWarning st;
          pendingPath := pendingPath st;
          loadMode := loadMode st |} |}.

(** The callbacks, as the events of the stream that trigger them. *)
Inductive Callback :=
| Metadata (metadata : RepositoryMetadata)
| Commits (commits : list Commit) (progress : float) (total : Z)
| Complete
| Error (error_message : string).

Definition dispatch `{Locale} (s : Session) (cb : Callback) : Session :=
  match cb with
  | Metadata metadata => onMetadata metadata s
  | Commits commits progress total => onCommits commits progress total s
  | Complete => onComplete s
  | Error e => onError e s
  end.

(** The callbacks run one after the other, in arrival order. *)
Definition consume `{Locale} (cbs : list Callback) (s : Session) : Session :=
  foldl dispatch s cbs.

Definition ofChunk (c : Chunk) : Callback :=
  Commits (chunk_commits c) (progress c) (chunk_total c).

(** The repository view shows exactly the commits [cs]: they are the
    buffer of the session, the [commits] of the view and what
    [loadedCommitCount] counts. *)
Definition merged (s : Session) (cs : list Commit) : Prop :=
  allCommits s = cs ∧
  ∃ repo, repository (store s) = Some repo ∧
          repo_commits repo = cs ∧
          loadedCommitCount repo = Some (length cs).

End RepositoryStore.

(** ** The graph layout engine *)

Module LayoutEngine.

Inductive Direction := TB | LR.

Record LayoutOptions := {
  direction : Direction;
  nodeSpacing : float;
  rankSpacing : float
}.

Record GraphSettings := {
  compactMode : bool;
  colorByAuthor : bool;
  highlightedCommits : gset string
}.

Record Position := { pos_x : float; pos_y : float }.

Record CommitNodeData := {
  commit : Commit;
  color : string;
  isCompact : bool;
  isHighlighted : bool
}.

Record CommitNode := {
  node_id : string;
  node_type : string;
  position : Position;
  data : CommitNodeData
}.

Record EdgeStyle := { stroke : string; strokeWidth : Z }.

Record EdgeData := { isMerge : bool; edge_color : string }.

Record CommitEdge := {
  edge_id : string;
  source : string;
  target : string;
  edge_type : string;
  style : EdgeStyle;
  edge_data : EdgeData
}.

Record Layout := { nodes : list CommitNode; edges : list CommitEdge }.

(** *** The graph handed to dagre

    A graphlib graph keeps one label per node id and at most one edge per
    ordered pair of ids, both in insertion order. *)

Record GraphLabel := {
  rankdir : Direction;
  nodesep : float;
  ranksep : float;
  marginx : float;
  marginy : float
}.

Record NodeLabel := { width : float; height : float }.

Record Graph := {
  graph_label : option GraphLabel;
  graph_nodes : list (string * NodeLabel);
  graph_edges : list (string * string)
}.

Definition newGraph : Graph :=
  {| graph_label := None; graph_nodes := []; graph_edges := [] |}.

Definition setGraph (g : Graph) (label : GraphLabel) : Graph :=
  {| graph_label := Some label; graph_nodes := graph_nodes g; graph_edges := graph_edges g |}.

(** Insert a binding, or replace the value of the one already there. *)
Fixpoint upsert {V} (k : string) (v : V) (kvs : list (string * V)) : list (string * V) :=
  match kvs with
  | [] => [(k, v)]
  | (k', v') :: rest =>
      if String.eqb k' k then (k', v) :: rest else (k', v') :: upsert k v rest
  end.

Definition setNode (g : Graph) (id : string) (label : NodeLabel) : Graph :=
  {| graph_label := graph_label g;
     graph_nodes := upsert id label (graph_nodes g);
     graph_edges := graph_edges g |}.

(** [g.setEdge(v, w)], called on end points that are nodes already. *)
Definition setEdge (g : Graph) (v w : string) : Graph :=
  if bool_decide ((v, w) ∈ graph_edges g) then g
  else {| graph_label := graph_label g;
          graph_nodes := graph_nodes g;
          graph_edges := graph_edges g ++ [(v, w)] |}.

(** The collaborators of the engine: the layered layout of dagre, which
    gives every node of the graph the coordinates of its centre, and the
    two colour strategies of [branchColors]. *)
Class Collaborators := {
  dagre_layout : Graph -> string -> Position;
  assignBranchColors : list Commit -> gmap string string;
  assignAuthorColors : list Commit -> gmap string string
}.

Definition NODE_WIDTH_NORMAL : float := 280.
Definition NODE_HEIGHT_NORMAL : float := 100.
Definition NODE_WIDTH_COMPACT : float := 200.
Definition NODE_HEIGHT_COMPACT : float := 60.

(** The literal [0.6], as the binary64 value it denotes. *)
Definition COMPACT_SPACING : float := 0x1.3333333333333p-1.

Definition defaultOptions : LayoutOptions :=
  {| direction := TB; nodeSpacing := 40; rankSpacing := 80 |}.

Definition defaultSettings : GraphSettings :=
  {| compactMode := false; colorByAuthor := false; highlightedCommits := ∅ |}.

(** [colorMap.get(hash) || '#888'] *)
Definition colorOf (colorMap : gmap string string) (h : string) : string :=
  match colorMap !! h with
  | Some c => if Js.truthy c then c else "#888"
  | None => "#888"
  end.

(** The edge pushed for the parent at index [i] of [commit]. *)
Definition mkEdge (colorMap : gmap string string) (commit : Commit) (i : nat)
    (parentHash : string) : CommitEdge :=
  {| edge_id := hash commit +:+ "-" +:+ parentHash;
     source := hash commit;
     target := parentHash;
     edge_type := "smoothstep";
     style := {| stroke := colorOf colorMap (hash commit); strokeWidth := 2 |};
     edge_data := {| isMerge := bool_decide (0 < i);
                     edge_color := colorOf colorMap (hash commit) |} |}.

(** The body of the inner loop, for the parent at index [i]. *)
Definition addParent (commitSet : gset string) (colorMap : gmap string string)
    (commit : Commit) (acc : Graph * list CommitEdge) (ip : nat * string)
    : Graph * list CommitEdge :=
  let '(i, parentHash) := ip in
  if bool_decide (parentHash ∈ commitSet)
  then (setEdge (fst acc) (hash commit) parentHash,
        snd acc ++ [mkEdge colorMap commit i parentHash])
  else acc.

(** The edges that the inner loop pushes for one commit: one for every
    parent index whose hash is in [commitSet]. *)
Definition parentEdges (commitSet : gset string) (colorMap : gmap string string)
    (commit : Commit) : list CommitEdge :=
  omap (λ ip : nat * string,
          if bool_decide (ip.2 ∈ commitSet) then Some (mkEdge colorMap commit ip.1 ip.2)
          else None)
       (imap pair (parents commit)).

(** The inner loop [for (let i = 0; i < commit.parents.length; i++)]. *)
Definition addParents (commitSet : gset string) (colorMap : gmap string string)
    (acc : Graph * list CommitEdge) (commit : Commit) : Graph * list CommitEdge :=
  foldl (addParent commitSet colorMap commit) acc (imap pair (parents commit)).

Definition layoutCommitGraph `{Collaborators} (commits : list Commit)
    (options : LayoutOptions) (graphSettings : GraphSettings) : Layout :=
  if bool_decide (length commits = 0) then {| nodes := []; edges := [] |}
  else
    let compactMode := compactMode graphSettings in
    let colorByAuthor := colorByAuthor graphSettings in
    let highlightedCommits := highlightedCommits graphSettings in
    let nodeWidth := if compactMode then NODE_WIDTH_COMPACT else NODE_WIDTH_NORMAL in
    let nodeHeight := if compactMode then NODE_HEIGHT_COMPACT else NODE_HEIGHT_NORMAL in
    let nodeSpacing :=
      if compactMode then (nodeSpacing options * COMPACT_SPACING)%float
      else nodeSpacing options in
    let rankSpacing :=
      if compactMode then (rankSpacing options * COMPACT_SPACING)%float
      else rankSpacing options in
    let g := setGraph newGraph
               {| rankdir := direction options;
                  nodesep := nodeSpacing;
                  ranksep := rankSpacing;
                  marginx := 50;
                  marginy := 50 |} in
    let colorMap :=
      if colorByAuthor then assignAuthorColors commits else assignBranchColors commits in
    let commitSet : gset string := list_to_set (map hash commits) in
    let g := foldl (fun g commit =>
                      setNode g (hash commit) {| width := nodeWidth; height := nodeHeight |})
                   g commits in
    let '(g, edges) := foldl (addParents commitSet colorMap) (g, []) commits in
    let layouted := dagre_layout g in
    let nodes :=
      map (fun commit =>
             let nodeWithPosition := layouted (hash commit) in
             {| node_id := hash commit;
                node_type := "commit";
                position :=
                  {| pos_x := (pos_x nodeWithPosition - nodeWidth / 2)%float;
                     pos_y := (pos_y nodeWithPosition - nodeHeight / 2)%float |};
                data := {| commit := commit;
                           color := colorOf colorMap (hash commit);
                           isCompact := compactMode;
                           isHighlighted := bool_decide (hash commit ∈ highlightedCommits) |} |})
          commits in
    {| nodes := nodes; edges := edges |}.

(** The colour map a call works with. *)
Definition colorMapOf `{Collaborators} (commits : list Commit) (graphSettings : GraphSettings)
  : gmap string string :=
  if colorByAuthor graphSettings then assignAuthorColors commits
  else assignBranchColors commits.

(** The two ends of an edge, child first. *)
Definition ends (e : CommitEdge) : string * string := (source e, target e).

End LayoutEngine.

(** ** Sample inputs *)

Module Samples.

Definition entry (h ps : string) : LogEntry :=
  {| entry_hash := h; entry_shortHash := h; entry_message := "commit " +:+ h;
     entry_body := ""; entry_authorName := "dev"; entry_authorEmail := "dev@example.org";
     entry_date := "2024-01-01T00:00:00+00:00"; entry_parents := ps; entry_refs := "" |}.

(** A repository whose commands succeed, with the given enumerations and count. *)
Definition repo (all firstParent : list LogEntry) (count : Z) : GitRepo :=
  {| repoPath := "/srv/repos/sample";
     checkIsRepo := Ok true;
     git_branch := Ok [ {| branch_name := "main"; branch_commit := "m";
                           isRemote := false; branch_isHead := true |} ];
     show_ref_tags := Ok [];
     revparse_head := Ok "main";
     rev_list_count := Ok count;
     history := fun fp => if fp then firstParent else all;
     log_error := fun _ _ _ => None |}.

(** A merge [m] of [a] and the side commit [b], whose branch has been
    deleted since: three commits are counted, the first-parent walk from
    the only branch visits [m] and [a]. *)
Definition mergeRepo : GitRepo :=
  repo [entry "m" "a b"; entry "b" "a"; entry "a" ""] [entry "m" "a b"; entry "a" ""] 3.

(** A repository without commits. *)
Definition emptyRepo : GitRepo := repo [] [] 0.

(** A linear history of [n] commits. *)
Definition linearRepo (n : nat) : GitRepo :=
  repo (replicate n (entry "c" "")) (replicate n (entry "c" "")) (Z.of_nat n).

(** A repository on which [git branch] fails. *)
Definition brokenBranches : GitRepo :=
  {| repoPath := "/srv/repos/sample";
     checkIsRepo := Ok true;
     git_branch := Throw "fatal: bad object";
     show_ref_tags := Ok [];
     revparse_head := Ok "main";
     rev_list_count := Ok 1%Z;
     history := fun _ => [entry "a" ""];
     log_error := fun _ _ _ => None |}.

(** A repository on which the second page of the log cannot be read. *)
Definition failingSecondPage : GitRepo :=
  {| repoPath := "/srv/repos/sample";
     checkIsRepo := Ok true;
     git_branch := Ok [];
     show_ref_tags := Ok [];
     revparse_head := Ok "main";
     rev_list_count := Ok 3%Z;
     history := fun _ => [entry "c" "b"; entry "b" "a"; entry "a" ""];
     log_error := fun _ _ skip => if bool_decide (skip = 0) then None else Some "git log failed" |}.

(** A repository on which no page of the log can be read. *)
Definition unreadableLog : GitRepo :=
  {| repoPath := "/srv/repos/sample";
     checkIsRepo := Ok true;
     git_branch := Ok [];
     show_ref_tags := Ok [];
     revparse_head := Ok "main";
     rev_list_count := Ok 3%Z;
     history := fun _ => [entry "c" "b"; entry "b" "a"; entry "a" ""];
     log_error := fun _ _ _ => Some "fatal: bad object HEAD" |}.

Definition page (maxCount skip : nat) (firstParent : bool) : GitService.PaginationOptions :=
  GitService.pageOptions maxCount skip firstParent.

End Samples.

(** ** The full load, the commit lookup and the JSON routes *)

(** The answers of the commands that only the full load and the commit
    lookup run, beside those of the repository handle: [log_full] is
    [git.log] without a bound or an offset, [log_commit hash] is [git.log]
    from [hash] to [hash] with [-1]. When two members of a [Promise.all]
    reject, the error of the one that rejects first wins:
    [branches_reject_first] says which. *)
Record GitCommands := {
  handle : GitRepo;
  log_full : result (list LogEntry);
  log_commit : string -> result (list LogEntry);
  branches_reject_first : bool
}.

Module FullLoad.

Definition getCommits (x : GitCommands) : result (list Commit) :=
  log ← log_full x;
  mret (map GitService.toCommit log).

(** [Promise.all([getCommits, getBranches, getTags, getCurrentBranch])]:
    the last two members cannot reject. *)
Definition getRepository (x : GitCommands) : result RepositoryStore.Repository :=
  let r := handle x in
  match getCommits x, GitService.getBranches r with
  | Ok commits, Ok branches =>
      Ok {| RepositoryStore.path := repoPath r;
            RepositoryStore.name := GitService.repoName (repoPath r);
            RepositoryStore.currentBranch := GitService.getCurrentBranch r;
            RepositoryStore.repo_commits := commits;
            RepositoryStore.branches := branches;
            RepositoryStore.tags := GitService.getTags r;
            RepositoryStore.stats := None;
            RepositoryStore.loadedCommitCount := None;
            RepositoryStore.totalCommitCount := None |}
  | Throw e, Ok _ => Throw e
  | Ok _, Throw e => Throw e
  | Throw e1, Throw e2 => Throw (if branches_reject_first x then e2 else e1)
  end.

(** [getCommitDetails]. [git] is the outcome of [this.getGit(repoPath)],
    which is called before the [try]: when the handle cannot be opened the
    call rejects. Every failure of the lookup itself is answered with
    [null]. *)
Definition getCommitDetails (git : result GitCommands) (hash : string)
  : result (option Commit) :=
  x ← git;
  mret (match log_commit x hash with
        | Ok (entry :: _) => Some (GitService.toCommit entry)
        | Ok [] => None
        | Throw _ => None
        end).

(** What the handler of a JSON route answers, once the [validatePath]
    middleware has let the request through: [res.json(body)] with status
    200, or [res.status(code).json({ error })]. *)
Inductive Reply (A : Type) : Type :=
| Sent (body : A)
| Refused (status : nat) (error : string).
Arguments Sent {A} body.
Arguments Refused {A} status error.

(** [try { ... } catch (error) { res.status(500).json({ error: error.message }) }] *)
Definition guarded {A} (body : result (Reply A)) : Reply A :=
  match body with
  | Ok reply => reply
  | Throw e => Refused 500 e
  end.

Definition notARepository {A} : Reply A := Refused 400 "Not a valid git repository".

(** GET /repository/validate *)
Definition validate (x : GitCommands) : Reply bool :=
  guarded (mret (Sent (GitService.validateRepository (handle x)))).

(** POST /repository/stats *)
Definition stats (x : GitCommands) : Reply RepoStats :=
  guarded (
    if negb (GitService.validateRepository (handle x)) then mret notARepository
    else mret (Sent (GitService.getRepoStats (handle x)))).

(** POST /repository/metadata *)
Definition metadata (x : GitCommands) : Reply RepositoryMetadata :=
  guarded (
    if negb (GitService.validateRepository (handle x)) then mret notARepository
    else md ← GitService.getRepositoryMetadata (handle x); mret (Sent md)).

(** POST /repository/load *)
Definition load (x : GitCommands) : Reply RepositoryStore.Repository :=
  guarded (
    if negb (GitService.validateRepository (handle x)) then mret notARepository
    else repository ← getRepository x; mret (Sent repository)).

(** The query of the commits route: the numbers as [parseInt] reads them
    ([None] for NaN), [firstParent] as the raw text. Negative numbers, for
    which git has a meaning of its own, are left out. *)
Record CommitsQuery := {
  cq_maxCount : option nat;
  cq_skip : option nat;
  cq_firstParent : option string
}.

(** [parseInt(req.query.maxCount) || 500] *)
Definition maxCountOf (q : CommitsQuery) : nat :=
  match cq_maxCount q with
  | Some (S n) => S n
  | _ => 500
  end.

(** [parseInt(req.query.skip) || 0] *)
Definition skipOf (q : CommitsQuery) : nat := default 0 (cq_skip q).

Definition firstParentOf (q : CommitsQuery) : bool :=
  match cq_firstParent q with
  | Some s => String.eqb s "true"
  | None => false
  end.

(** POST /repository/commits *)
Definition commitsPage (x : GitCommands) (q : CommitsQuery) : Reply PaginatedCommits :=
  guarded (
    let maxCount := maxCountOf q in
    let skip := skipOf q in
    let firstParent := firstParentOf q in
    if negb (GitService.validateRepository (handle x)) then mret notARepository
    else
      result ← GitService.getCommitsPaginated (handle x)
                 (GitService.pageOptions maxCount skip firstParent);
      mret (Sent result)).

(** GET /commit/:hash *)
Definition commitByHash (git : result GitCommands) (hash : string) : Reply Commit :=
  guarded (
    commit ← getCommitDetails git hash;
    match commit with
    | None => mret (Refused 404 "Commit not found")
    | Some commit => mret (Sent commit)
    end).

End FullLoad.

(** ** The actions of the client store *)

Module StoreActions.
Import RepositoryStore.

(** The functions of [gitApi] the actions call. [streamRepository] answers
    with the handle that aborts the stream; its callbacks are the ones of
    [RepositoryStore]. *)
Class Api := {
  api_getRepoStats : string -> result RepoStats;
  api_loadRepository : string -> result Repository;
  api_cloneRepository : string -> bool -> result Repository;
  api_streamRepository : string -> nat -> bool -> result nat;
  api_getCommitsPaginated : string -> nat -> nat -> bool -> result PaginatedCommits
}.

(** What an action does to the outside, in order. *)
Inductive Effect :=
| Abort (stream : nat)
| GetRepoStats (path : string)
| LoadRepository (path : string)
| CloneRepository (url : string) (shallow : bool)
| StreamRepository (path : string) (chunkSize : nat) (firstParent : bool)
| GetCommitsPaginated (path : string) (skip maxCount : nat) (firstParent : bool).

(** [set({ field: v })], field by field. *)
Definition set_repository (v : option Repository) (st : RepositoryState) : RepositoryState :=
  {| repository := v;
     isLoading := isLoading st;
     loadingMessage := loadingMessage st;
     loadingProgress := loadingProgress st;
     error := error st;
     selectedCommit := selectedCommit st;
     searchQuery := searchQuery st;
     repoStats := repoStats st;
     showLargeRepoWarning := showLargeRepoWarning st;
     pendingPath := pendingPath st;
     loadMode := loadMode st;
     abortStream := abortStream st |}.

Definition set_isLoading (v : bool) (st : RepositoryState) : RepositoryState :=
  {| repository := repository st;
     isLoading := v;
     loadingMessage := loadingMessage st;
     loadingProgress := loadingProgress st;
     error := error st;
     selectedCommit := selectedCommit st;
     searchQuery := searchQuery st;
     repoStats := repoStats st;
     showLargeRepoWarning := showLargeRepoWarning st;
     pendingPath := pendingPath st;
     loadMode := loadMode st;
     abortStream := abortStream st |}.

Definition set_loadingMessage (v : string) (st : RepositoryState) : RepositoryState :=
  {| repository := repository st;
     isLoading := isLoading st;
     loadingMessage := v;
     loadingProgress := loadingProgress st;
     error := error st;
     selectedCommit := selectedCommit st;
     searchQuery := searchQuery st;
     repoStats := repoStats st;
     showLargeRepoWarning := showLargeRepoWarning st;
     pendingPath := pendingPath st;
     loadMode := loadMode st;
     abortStream := abortStream st |}.

Definition set_loadingProgress (v : float) (st : RepositoryState) : RepositoryState :=
  {| repository := repository st;
     isLoading := isLoading st;
     loadingMessage := loadingMessage st;
     loadingProgress := v;
     error := error st;
     selectedCommit := selectedCommit st;
     searchQuery := searchQuery st;
     repoStats := repoStats st;
     showLargeRepoWarning := showLargeRepoWarning st;
     pendingPath := pendingPath st;
     loadMode := loadMode st;
     abortStream := abortStream st |}.

Definition set_error (v : option string) (st : RepositoryState) : RepositoryState :=
  {| repository := repository st;
     isLoading := isLoading st;
     loadingMessage := loadingMessage st;
     loadingProgress := loadingProgress st;
     error := v;
     selectedCommit := selectedCommit st;
     searchQuery := searchQuery st;
     repoStats := repoStats st;
     showLargeRepoWarning := showLargeRepoWarning st;
     pendingPath := pendingPath st;
     loadMode := loadMode st;
     abortStream := abortStream st |}.

Definition set_selectedCommit (v : option Commit) (st : RepositoryState) : RepositoryState :=
  {| repository := repository st;
     isLoading := isLoading st;
     loadingMessage := loadingMessage st;
     loadingProgress := loadingProgress st;
     error := error st;
     selectedCommit := v;
     searchQuery := searchQuery st;
     repoStats := repoStats st;
     showLargeRepoWarning := showLargeRepoWarning st;
     pendingPath := pendingPath st;
     loadMode := loadMode st;
     abortStream := abortStream st |}.

Definition set_searchQuery (v : string) (st : RepositoryState) : RepositoryState :=
  {| repository := repository st;
     isLoading := isLoading st;
     loadingMessage := loadingMessage st;
     loadingProgress := loadingProgress st;
     error := error st;
     selectedCommit := selectedCommit st;
     searchQuery := v;
     repoStats := repoStats st;
     showLargeRepoWarning := showLargeRepoWarning st;
     pendingPath := pendingPath st;
     loadMode := loadMode st;
     abortStream := abortStream st |}.

Definition set_repoStats (v : option RepoStats) (st : RepositoryState) : RepositoryState :=
  {| repository := repository st;
     isLoading := isLoading st;
     loadingMessage := loadingMessage st;
     loadingProgress := loadingProgress st;
     error := error st;
     selectedCommit := selectedCommit st;
     searchQuery := searchQuery st;
     repoStats := v;
     showLargeRepoWarning := showLargeRepoWarning st;
     pendingPath := pendingPath st;
     loadMode := loadMode st;
     abortStream := abortStream st |}.

Definition set_showLargeRepoWarning (v : bool) (st : RepositoryState) : RepositoryState :=
  {| repository := repository st;
     isLoading := isLoading st;
     loadingMessage := loadingMessage st;
     loadingProgress := loadingProgress st;
     error := error st;
     selectedCommit := selectedCommit st;
     searchQuery := searchQuery st;
     repoStats := repoStats st;
     showLargeRepoWarning := v;
     pendingPath := pendingPath st;
     loadMode := loadMode st;
     abortStream := abortStream st |}.

Definition set_pendingPath (v : option string) (st : RepositoryState) : RepositoryState :=
  {| repository := repository st;
     isLoading := isLoading st;
     loadingMessage := loadingMessage st;
     loadingProgress := loadingProgress st;
     error := error st;
     selectedCommit := selectedCommit st;
     searchQuery := searchQuery st;
     repoStats := repoStats st;
     showLargeRepoWarning := showLargeRepoWarning st;
     pendingPath := v;
     loadMode := loadMode st;
     abortStream := abortStream st |}.

Definition set_loadMode (v : LoadMode) (st : RepositoryState) : RepositoryState :=
  {| repository := repository st;
     isLoading := isLoading st;
     loadingMessage := loadingMessage st;
     loadingProgress := loadingProgress st;
     error := error st;
     selectedCommit := selectedCommit st;
     searchQuery := searchQuery st;
     repoStats := repoStats st;
     showLargeRepoWarning := showLargeRepoWarning st;
     pendingPath := pendingPath st;
     loadMode := v;
     abortStream := abortStream st |}.

Definition set_abortStream (v : option nat) (st : RepositoryState) : RepositoryState :=
  {| repository := repository st;
     isLoading := isLoading st;
     loadingMessage := loadingMessage st;
     loadingProgress := loadingProgress st;
     error := error st;
     selectedCommit := selectedCommit st;
     searchQuery := searchQuery st;
     repoStats := repoStats st;
     showLargeRepoWarning := showLargeRepoWarning st;
     pendingPath := pendingPath st;
     loadMode := loadMode st;
     abortStream := v |}.

(** An action reads and updates the store and records its effects. *)
Definition Action (A : Type) : Type := RepositoryState -> A * RepositoryState * list Effect.

Definition ret {A} (a : A) : Action A := fun st => (a, st, []).

Definition seq {A B} (m : Action A) (k : A -> Action B) : Action B :=
  fun st =>
    let '(a, st1, fx1) := m st in
    let '(b, st2, fx2) := k a st1 in
    (b, st2, fx1 ++ fx2).

Notation "'do' x <- m ; k" := (seq m (fun x => k))
  (at level 10, x name, m at level 100, k at level 200).
Notation "m ;; k" := (seq m (fun _ => k))
  (at level 100, k at level 200, right associativity).

(** [get()] *)
Definition get : Action RepositoryState := fun st => (st, st, []).

(** [set(update)] *)
Definition set (update : RepositoryState -> RepositoryState) : Action unit :=
  fun st => ((), update st, []).

Definition emit (e : Effect) : Action unit := fun st => ((), st, [e]).

(** [await call]: the call is recorded, its answer is the one of the API. *)
Definition call {A} (e : Effect) (answer : result A) : Action (result A) :=
  fun st => (answer, st, [e]).

(** Several fields in one [set]. *)
Definition fields (updates : list (RepositoryState -> RepositoryState))
  : RepositoryState -> RepositoryState :=
  fun st => foldl (fun st update => update st) st updates.

(** [{ ...repository, loadedCommitCount: n, totalCommitCount: n }] with
    [n = repository.commits.length] *)
Definition counted (repository : Repository) : Repository :=
  {| path := path repository;
     name := name repository;
     currentBranch := currentBranch repository;
     repo_commits := repo_commits repository;
     branches := branches repository;
     tags := tags repository;
     stats := stats repository;
     loadedCommitCount := Some (length (repo_commits repository));
     totalCommitCount := Some (Z.of_nat (length (repo_commits repository))) |}.

(** The [catch] block shared by the loads. *)
Definition failed (e : string) : RepositoryState -> RepositoryState :=
  fields [set_error (Some e); set_isLoading false; set_loadingProgress (-1);
          set_loadingMessage ""].

Definition isFull (mode : LoadMode) : bool :=
  match mode with full => true | _ => false end.

Definition isSimplified (mode : LoadMode) : bool :=
  match mode with simplified => true | _ => false end.

Section WithApi.
Context `{Api}.

Definition loadRepoWithMode (path : string) (mode : LoadMode) : Action unit :=
  do st <- get;
  match abortStream st with
  | Some stream => emit (Abort stream)
  | None => ret ()
  end ;;
  set (fields [set_isLoading true; set_error None; set_selectedCommit None;
               set_loadMode mode; set_showLargeRepoWarning false; set_pendingPath None]) ;;
  if isFull mode then
    set (fields [set_loadingMessage "Fetching commits and branches...";
                 set_loadingProgress 50]) ;;
    do loaded <- call (LoadRepository path) (api_loadRepository path);
    match loaded with
    | Ok repository =>
        set (fields [set_repository (Some (counted repository)); set_isLoading false;
                     set_loadingProgress 100; set_loadingMessage ""])
    | Throw e => set (failed e)
    end
  else
    set (fields [set_loadingMessage "Starting stream..."; set_loadingProgress 5]) ;;
    let firstParent := isSimplified mode in
    do started <- call (StreamRepository path 1000 firstParent)
                         (api_streamRepository path 1000 firstParent);
    match started with
    | Ok abort => set (set_abortStream (Some abort))
    | Throw e => set (failed e)
    end.

Definition loadRepo (path : string) : Action unit :=
  do st <- get;
  match abortStream st with
  | Some stream => emit (Abort stream) ;; set (set_abortStream None)
  | None => ret ()
  end ;;
  set (fields [set_isLoading true; set_error None; set_selectedCommit None;
               set_loadingMessage "Checking repository size..."; set_loadingProgress 10]) ;;
  do answer <- call (GetRepoStats path) (api_getRepoStats path);
  match answer with
  | Ok stats =>
      set (set_repoStats (Some stats)) ;;
      if isLargeRepo stats then
        set (fields [set_isLoading false; set_showLargeRepoWarning true;
                     set_pendingPath (Some path); set_loadingProgress (-1);
                     set_loadingMessage ""])
      else loadRepoWithMode path full
  | Throw e => set (failed e)
  end.

Definition loadMoreCommits : Action unit :=
  do st <- get;
  match repository st with
  | None => ret ()
  | Some repository =>
      if isLoading st then ret ()
      else
        let currentCount := length (repo_commits repository) in
        let total := default 0%Z (totalCommitCount repository) in
        if bool_decide (total ≤ Z.of_nat currentCount)%Z then ret ()
        else
          set (fields [set_isLoading true; set_loadingMessage "Loading more commits..."]) ;;
          let firstParent := isSimplified (loadMode st) in
          do answer <- call (GetCommitsPaginated (path repository) currentCount 1000 firstParent)
                              (api_getCommitsPaginated (path repository) currentCount 1000
                                                       firstParent);
          match answer with
          | Ok result =>
              set (fun state =>
                     fields [set_repository
                               (match RepositoryStore.repository state with
                                | Some repo =>
                                    Some {| path := path repo;
                                            name := name repo;
                                            currentBranch := currentBranch repo;
                                            repo_commits := repo_commits repo ++ commits result;
                                            branches := branches repo;
                                            tags := tags repo;
                                            stats := stats repo;
                                            loadedCommitCount :=
                                              Some (length (repo_commits repo)
                                                    + length (commits result));
                                            totalCommitCount := totalCommitCount repo |}
                                | None => None
                                end);
                             set_isLoading false; set_loadingMessage ""] state)
          | Throw e =>
              set (fields [set_error (Some e); set_isLoading false; set_loadingMessage ""])
          end
  end.

Definition cloneRepo (url : string) (shallow : option bool) : Action unit :=
  let shallow := default true shallow in
  set (fields [set_isLoading true; set_error None; set_selectedCommit None;
               set_loadingMessage (if shallow then "Cloning repository (shallow)..."
                                   else "Cloning full repository...");
               set_loadingProgress (-1)]) ;;
  set (fields [set_loadingMessage
                 (if shallow then "Downloading recent history..."
                  else "Downloading full history (this may take a while)...");
               set_loadingProgress 30]) ;;
  do cloned <- call (CloneRepository url shallow) (api_cloneRepository url shallow);
  match cloned with
  | Ok repository =>
      do answer <- call (GetRepoStats (path repository)) (api_getRepoStats (path repository));
      match answer with
      | Ok stats =>
          set (set_repoStats (Some stats)) ;;
          if isLargeRepo stats then
            set (fields [set_isLoading false; set_showLargeRepoWarning true;
                         set_pendingPath (Some (path repository));
                         set_loadingProgress (-1); set_loadingMessage ""])
          else
            set (fields [set_loadingProgress 90; set_loadingMessage "Building graph..."]) ;;
            set (fields [set_repository (Some (counted repository)); set_isLoading false;
                         set_loadingProgress 100; set_loadingMessage ""])
      | Throw e => set (failed e)
      end
  | Throw e => set (failed e)
  end.

Definition setSelectedCommit (commit : option Commit) : Action unit :=
  set (set_selectedCommit commit).

Definition setSearchQuery (query : string) : Action unit :=
  set (set_searchQuery query).

Definition dismissLargeRepoWarning : Action unit :=
  set (fields [set_showLargeRepoWarning false; set_pendingPath None; set_isLoading false]).

(** [if (pendingPath)]: the empty path is falsy, as [null] is. *)
Definition confirmLoadLargeRepo (mode : LoadMode) : Action unit :=
  do st <- get;
  match pendingPath st with
  | Some pending => if Js.truthy pending then loadRepoWithMode pending mode else ret ()
  | None => ret ()
  end.

Definition reset : Action unit :=
  do st <- get;
  match abortStream st with
  | Some stream => emit (Abort stream)
  | None => ret ()
  end ;;
  set (fields [set_repository None; set_selectedCommit None; set_searchQuery "";
               set_error None; set_repoStats None; set_showLargeRepoWarning false;
               set_pendingPath None; set_abortStream None]).

End WithApi.

(** The store after an action, and what the action did. *)
Definition after {A} (m : Action A) (st : RepositoryState) : RepositoryState := (m st).1.2.
Definition effects {A} (m : Action A) (st : RepositoryState) : list Effect := (m st).2.

(** The initial state of the store. *)
Definition initial : RepositoryState :=
  {| repository := None; isLoading := false; loadingMessage := ""; loadingProgress := -1;
     error := None; selectedCommit := None; searchQuery := ""; repoStats := None;
     showLargeRepoWarning := false; pendingPath := None; loadMode := full;
     abortStream := None |}.

End StoreActions.

(** ** Reading the tags

    [getTags] of the service reads the output of [git show-ref --tags];
    the answer [show_ref_tags] of a [GitRepo] stands for the result. *)

Module TagParsing.

(** [s.replace(pattern, '')] for a string pattern: the first occurrence of
    the pattern is removed. *)
Fixpoint replace_first (pattern s : string) : string :=
  if Js.startsWith s pattern then Js.dropPrefix pattern s
  else match s with
       | String a rest => String a (replace_first pattern rest)
       | EmptyString => EmptyString
       end.

(** The callback of [map]. On a line without a space [ref] is undefined
    and [ref.replace] throws. *)
Definition parseLine (line : string) : result Tag :=
  match Js.split " " line with
  | commit :: ref :: _ =>
      Ok {| tag_name := replace_first "refs/tags/" ref; tag_commit := commit |}
  | _ => Throw "Cannot read properties of undefined (reading 'replace')"
  end.

(** [lines.map(callback)], which stops at the first exception. *)
Fixpoint parseLines (lines : list string) : result (list Tag) :=
  match lines with
  | [] => Ok []
  | line :: rest =>
      tag ← parseLine line;
      tags ← parseLines rest;
      mret (tag :: tags)
  end.

(** [getTags], given the answer of [git.raw(['show-ref', '--tags'])]. *)
Definition getTags (raw : result string) : list Tag :=
  catch_default
    (result ← raw;
     parseLines (filter (fun line => Is_true (Js.truthy line))
                        (Js.split "010" (Js.trim result))))
    [].

(** A line of [git show-ref --tags]: the object id, a space, the full name
    of the ref. *)
Definition line (t : Tag) : string := tag_commit t +:+ " refs/tags/" +:+ tag_name t.

(** A string of printable ASCII characters other than the space. *)
Definition solid (s : string) : bool :=
  forallb (fun c => (32 <? nat_of_ascii c) && (nat_of_ascii c <? 127))
          (list_ascii_of_string s).

End TagParsing.

(** ** The activity heatmap (the [ActivityHeatmap] component)

    The grid is built by a loop over the days from the Sunday on or before
    the day 364 days ago up to today. The calendar is the host's: the
    model takes the days the loop visits as they come. Counts are integers. *)

Module ActivityHeatmap.

Record ActivityDay := { ad_date : string; ad_count : Z }.

(** What one iteration reads from [currentDate]: the date part of
    [toISOString()] and [getMonth()]. *)
Record CalendarDay := { isoDate : string; monthIndex : nat }.

Record Cell := { cell_date : string; cell_count : Z }.

Record MonthLabel := { label_month : string; label_weekIndex : nat }.

Definition MONTHS : list string :=
  ["Jan"; "Feb"; "Mar"; "Apr"; "May"; "Jun"; "Jul"; "Aug"; "Sep"; "Oct"; "Nov"; "Dec"].

(** [activity.forEach(day => activityMap.set(day.date, day.count))] *)
Definition activityMapOf (activity : list ActivityDay) : gmap string Z :=
  foldl (fun m day => <[ad_date day := ad_count day]> m) ∅ activity.

(** The variables of the loop. [currentMonth] starts at -1, which is no month. *)
Record Loop := {
  weeks : list (list Cell);
  monthLabels : list MonthLabel;
  currentWeek : list Cell;
  currentMonth : option nat;
  total : Z;
  maxCount : Z;
  weekIndex : nat
}.

Definition start : Loop :=
  {| weeks := []; monthLabels := []; currentWeek := []; currentMonth := None;
     total := 0; maxCount := 0; weekIndex := 0 |}.

(** [activityMap.get(dateStr) || 0] *)
Definition countOf (activityMap : gmap string Z) (d : CalendarDay) : Z :=
  default 0%Z (activityMap !! isoDate d).

Definition cellOf (activityMap : gmap string Z) (d : CalendarDay) : Cell :=
  {| cell_date := isoDate d; cell_count := countOf activityMap d |}.

(** The body of the loop, for the day [currentDate] stands on. *)
Definition step (activityMap : gmap string Z) (s : Loop) (d : CalendarDay) : Loop :=
  let count := countOf activityMap d in
  let total := (total s + count)%Z in
  let maxCount := Z.max (maxCount s) count in
  let labelled :=
    negb (bool_decide (currentMonth s = Some (monthIndex d)))
    && bool_decide (length (currentWeek s) = 0) in
  let monthLabels :=
    if labelled
    then monthLabels s ++ [ {| label_month := default "" (MONTHS !! monthIndex d);
                               label_weekIndex := weekIndex s |} ]
    else monthLabels s in
  let currentMonth := if labelled then Some (monthIndex d) else currentMonth s in
  let currentWeek := currentWeek s ++ [ {| cell_date := isoDate d; cell_count := count |} ] in
  if bool_decide (length currentWeek = 7)
  then {| weeks := weeks s ++ [currentWeek]; monthLabels := monthLabels;
          currentWeek := []; currentMonth := currentMonth;
          total := total; maxCount := maxCount; weekIndex := S (weekIndex s) |}
  else {| weeks := weeks s; monthLabels := monthLabels;
          currentWeek := currentWeek; currentMonth := currentMonth;
          total := total; maxCount := maxCount; weekIndex := weekIndex s |}.

Record Grid := {
  grid_weeks : list (list Cell);
  grid_maxCount : Z;
  grid_monthLabels : list MonthLabel;
  totalCommits : Z
}.

(** The memoised computation of the component; [days] are the days the
    loop visits, from the Sunday it starts on up to today. *)
Definition grid (activity : list ActivityDay) (days : list CalendarDay) : Grid :=
  let s := foldl (step (activityMapOf activity)) start days in
  {| grid_weeks :=
       if bool_decide (0 < length (currentWeek s)) then weeks s ++ [currentWeek s]
       else weeks s;
     grid_maxCount := if (maxCount s =? 0)%Z then 1%Z else maxCount s;
     grid_monthLabels := monthLabels s;
     totalCommits := total s |}.

(** What holds of the variables of the loop after the days [seen]. *)
Definition invariant (activityMap : gmap string Z) (seen : list CalendarDay) (s : Loop) : Prop :=
  concat (weeks s) ++ currentWeek s = map (cellOf activityMap) seen ∧
  Forall (fun week => length week = 7) (weeks s) ∧
  length (currentWeek s) < 7 ∧
  weekIndex s = length (weeks s) ∧
  StronglySorted lt (map label_weekIndex (monthLabels s)) ∧
  Forall (fun label => label_weekIndex label ≤ weekIndex s) (monthLabels s) ∧
  (currentWeek s = [] → Forall (fun label => label_weekIndex label < weekIndex s) (monthLabels s)) ∧
  total s = foldr Z.add 0%Z (map (countOf activityMap) seen) ∧
  (0 ≤ maxCount s)%Z ∧
  Forall (fun d => (countOf activityMap d ≤ maxCount s)%Z) seen.

End ActivityHeatmap.

(** ** The graph canvas (the [GraphCanvas] component) *)

Module GraphCanvas.
Import LayoutEngine.

(** [String.prototype.toLowerCase] of the host. *)
Class CaseMapping := toLowerCase : string -> string.

(** [s.includes(sub)] *)
Fixpoint includes (s sub : string) : bool :=
  Js.startsWith s sub
  || match s with
     | String _ rest => includes rest sub
     | EmptyString => false
     end.

(** The settings of the graph that the canvas reads from the store. *)
Record CanvasSettings := {
  hideMergeCommits : bool;
  canvas_compactMode : bool;
  canvas_colorByAuthor : bool
}.

(** The predicate of the search filter, for a query in lower case. *)
Definition matches `{CaseMapping} (query : string) (commit : Commit) : bool :=
  includes (toLowerCase (message commit)) query
  || includes (toLowerCase (hash commit)) query
  || includes (toLowerCase (shortHash commit)) query
  || includes (toLowerCase (author_name (author commit))) query
  || existsb (fun ref => includes (toLowerCase (ref_name ref)) query) (refs commit).

(** [filteredCommits]; [commits] is [repository?.commits]. *)
Definition filteredCommits `{CaseMapping} (commits : option (list Commit))
    (searchQuery : string) (graphSettings : CanvasSettings) : list Commit :=
  match commits with
  | None => []
  | Some commits =>
      let commits :=
        if hideMergeCommits graphSettings
        then filter (fun commit => length (parents commit) ≤ 1) commits
        else commits in
      if Js.truthy (Js.trim searchQuery)
      then
        let query := toLowerCase searchQuery in
        filter (fun commit => Is_true (matches query commit)) commits
      else commits
  end.

(** The memoised layout: it is computed with an empty highlight set. *)
Definition layouted `{Collaborators} (filteredCommits : list Commit)
    (graphSettings : CanvasSettings) : Layout :=
  if bool_decide (length filteredCommits = 0) then {| nodes := []; edges := [] |}
  else
    layoutCommitGraph filteredCommits
      {| direction := TB; nodeSpacing := 40; rankSpacing := 80 |}
      {| compactMode := canvas_compactMode graphSettings;
         colorByAuthor := canvas_colorByAuthor graphSettings;
         highlightedCommits := ∅ |}.

(** A node as the canvas hands it to React Flow. *)
Record CanvasNode := { canvas_node : CommitNode; selected : bool }.

(** [selectedCommit?.hash === id] *)
Definition isSelected (selectedCommit : option Commit) (id : string) : bool :=
  match selectedCommit with
  | Some commit => String.eqb (hash commit) id
  | None => false
  end.

(** [nodesWithState]: selection and highlighting laid over the memoised nodes. *)
Definition nodesWithState (layoutedNodes : list CommitNode) (selectedCommit : option Commit)
    (highlightedCommits : gset string) : list CanvasNode :=
  map (fun node =>
         {| canvas_node :=
              {| node_id := node_id node;
                 node_type := node_type node;
                 position := position node;
                 data := {| commit := commit (data node);
                            color := color (data node);
                            isCompact := isCompact (data node);
                            isHighlighted :=
                              bool_decide (node_id node ∈ highlightedCommits) |} |};
            selected := isSelected selectedCommit (node_id node) |})
      layoutedNodes.

(** [onNodeClick]: the argument of the call of [setSelectedCommit], if the
    call is made. *)
Definition onNodeClick (commits : option (list Commit)) (selectedCommit : option Commit)
    (id : string) : option (option Commit) :=
  match commits with
  | None => None
  | Some commits =>
      match find (fun c => String.eqb (hash c) id) commits with
      | Some commit =>
          Some (if isSelected selectedCommit (hash commit) then None else Some commit)
      | None => None
      end
  end.

End GraphCanvas.

(** ** Sample inputs for the full load and the store *)

Module SampleStore.

(** The commands of a repository whose full log is its enumeration. *)
Definition commands (r : GitRepo) : GitCommands :=
  {| handle := r;
     log_full := Ok (history r false);
     log_commit := fun h =>
       Ok (take 1 (filter (fun e => entry_hash e = h) (history r false)));
     branches_reject_first := false |}.

(** An API whose answers are those of the service functions on one repository. *)
Definition direct (x : GitCommands) : StoreActions.Api :=
  {| StoreActions.api_getRepoStats := fun _ => Ok (GitService.getRepoStats (handle x));
     StoreActions.api_loadRepository := fun _ => FullLoad.getRepository x;
     StoreActions.api_cloneRepository := fun _ _ => FullLoad.getRepository x;
     StoreActions.api_streamRepository := fun _ _ _ => Ok 7;
     StoreActions.api_getCommitsPaginated := fun _ skip maxCount firstParent =>
       GitService.getCommitsPaginated (handle x)
         (GitService.pageOptions maxCount skip firstParent) |}.

(** An API that is down. *)
Definition offline : StoreActions.Api :=
  {| StoreActions.api_getRepoStats := fun _ => Throw "Network Error";
     StoreActions.api_loadRepository := fun _ => Throw "Network Error";
     StoreActions.api_cloneRepository := fun _ _ => Throw "Network Error";
     StoreActions.api_streamRepository := fun _ _ _ => Throw "Network Error";
     StoreActions.api_getCommitsPaginated := fun _ _ _ _ => Throw "Network Error" |}.

(** A repository that reports 20000 commits. *)
Definition largeRepo : GitRepo := Samples.repo [] [] 20000.

(** A store with a stream in flight. *)
Definition streaming : RepositoryStore.RepositoryState :=
  StoreActions.set_abortStream (Some 3) StoreActions.initial.

(** A locale that writes numbers without grouping. *)
Definition plain : RepositoryStore.Locale := fun z => pretty z.

(** The metadata event of a repository (an empty description when the
    metadata cannot be read). *)
Definition metadataOf (r : GitRepo) : RepositoryMetadata :=
  catch_default (GitService.getRepositoryMetadata r)
    {| md_path := ""; md_name := ""; md_currentBranch := ""; md_branches := [];
       md_tags := []; md_stats := GitService.getRepoStats r |}.

(** A store that shows the first [k] commits of an enumeration of the
    merge history, out of [total] announced, after a load in mode [mode]. *)
Definition viewing (k : nat) (total : Z) (mode : LoadMode) : RepositoryStore.RepositoryState :=
  let h := history Samples.mergeRepo (StoreActions.isSimplified mode) in
  StoreActions.set_loadMode mode
    (StoreActions.set_repository
       (Some {| RepositoryStore.path := "/srv/repos/sample";
                RepositoryStore.name := "sample";
                RepositoryStore.currentBranch := "main";
                RepositoryStore.repo_commits := map GitService.toCommit (take k h);
                RepositoryStore.branches := [];
                RepositoryStore.tags := [];
                RepositoryStore.stats := None;
                RepositoryStore.loadedCommitCount := Some k;
                RepositoryStore.totalCommitCount := Some total |})
       StoreActions.initial).

End SampleStore.

(** * Verification *)

(** ** Size classifier *)

Section Classifier.
Import GitService.
#[local] Open Scope Z_scope.

Lemma classify_spec (t : Z) :
  totalCommits (classify t) = t ∧
  isLargeRepo (classify t) = bool_decide (10000 < t) ∧
  recommendedMode (classify t) =
    (if bool_decide (100000 < t) then simplified
     else if bool_decide (10000 < t) then paginated else full).
Proof.
  unfold classify, HUGE_REPO_THRESHOLD, LARGE_REPO_THRESHOLD; simpl.
  repeat split; repeat case_bool_decide;
    repeat match goal with |- context [(?a <? ?b)] => destruct (Z.ltb_spec a b) end;
    try reflexivity; lia.
Qed.

(** C1. For every commit count [t >= 0] that the repository reports,
    [getRepoStats] answers with [isLargeRepo] true exactly when
    [t > 10000], and recommends "simplified" when [t > 100000],
    "paginated" when [10000 < t <= 100000] and "full" otherwise. *)
Theorem getRepoStats_policy (r : GitRepo) (t : Z) :
  getTotalCommitCount r = t → 0 ≤ t →
  totalCommits (getRepoStats r) = t ∧
  (isLargeRepo (getRepoStats r) = true ↔ 10000 < t) ∧
  (100000 < t → recommendedMode (getRepoStats r) = simplified) ∧
  (10000 < t ≤ 100000 → recommendedMode (getRepoStats r) = paginated) ∧
  (t ≤ 10000 → recommendedMode (getRepoStats r) = full).
Proof.
  intros Ht _. unfold getRepoStats. rewrite Ht.
  destruct (classify_spec t) as (-> & -> & ->).
  split; [reflexivity|]. split; [apply bool_decide_eq_true|].
  repeat split; intros; repeat case_bool_decide; try reflexivity; lia.
Qed.

Lemma getRepoStats_policy_witness :
  getTotalCommitCount (Samples.linearRepo 3) = 3 ∧ 0 ≤ 3 ∧
  recommendedMode (getRepoStats (Samples.linearRepo 3)) = full.
Proof.
  split; [reflexivity|]. split; [lia|].
  apply (getRepoStats_policy (Samples.linearRepo 3) 3); [reflexivity | lia | lia].
Defined.

(** The three scenarios of the specification. *)
Example classify_scenarios :
  classify 500 = {| totalCommits := 500; isLargeRepo := false; recommendedMode := full |} ∧
  classify 50000 = {| totalCommits := 50000; isLargeRepo := true; recommendedMode := paginated |} ∧
  classify 200000 = {| totalCommits := 200000; isLargeRepo := true; recommendedMode := simplified |}.
Proof. repeat split. Qed.

End Classifier.

(** ** Paginated fetch *)

Section Pagination.
Import GitService.

Variable r : GitRepo.
Variable options : PaginationOptions.

Let maxCount := default 500 (opt_maxCount options).
Let skip := default 0 (opt_skip options).
Let firstParent := default false (opt_firstParent options).

(** The entries of the log enumeration that follow the first [skip]. *)
Let pending := drop skip (history r firstParent).

(** A fetch fails exactly when its [git log] call fails, with that error. *)
Lemma getCommitsPaginated_Throw e :
  log_error r firstParent (maxCount + 1) skip = Some e →
  getCommitsPaginated r options = Throw e.
Proof.
  intros He. unfold getCommitsPaginated, git_log.
  fold maxCount skip firstParent. rewrite He. reflexivity.
Qed.

(** Otherwise it returns the page, the count and the look-ahead flag. *)
Lemma getCommitsPaginated_Ok :
  log_error r firstParent (maxCount + 1) skip = None →
  getCommitsPaginated r options =
    Ok {| commits := map toCommit (take maxCount pending);
          total := getTotalCommitCount r;
          hasMore := bool_decide (maxCount < length pending) |}.
Proof.
  intros He. unfold getCommitsPaginated, git_log.
  fold maxCount skip firstParent. rewrite He. simpl. fold pending.
  unfold mret, result_ret. do 2 f_equal.
  - rewrite take_take, Nat.min_l by lia. reflexivity.
  - rewrite length_take. apply bool_decide_ext. lia.
Qed.

Lemma getCommitsPaginated_inv res :
  getCommitsPaginated r options = Ok res →
  log_error r firstParent (maxCount + 1) skip = None ∧
  commits res = map toCommit (take maxCount pending) ∧
  total res = getTotalCommitCount r ∧
  hasMore res = bool_decide (maxCount < length pending).
Proof.
  destruct (log_error r firstParent (maxCount + 1) skip) as [e|] eqn:He.
  - rewrite (getCommitsPaginated_Throw e He). discriminate.
  - rewrite (getCommitsPaginated_Ok He). intros [= <-]. auto.
Qed.

Lemma page_length res :
  getCommitsPaginated r options = Ok res →
  length (commits res) = maxCount `min` length pending.
Proof.
  intros (_ & -> & _)%getCommitsPaginated_inv.
  rewrite length_map, length_take. reflexivity.
Qed.

End Pagination.

Section PaginationClaims.
Import GitService.
Implicit Types (r : GitRepo) (options : PaginationOptions) (res : PaginatedCommits).

(** C9. A fetch with [maxCount > 0] whose log call succeeds returns a page
    of at most [maxCount] commits, the first [maxCount] entries of the log
    enumeration (under the same [firstParent] setting) after skipping
    [skip], and [hasMore] is true exactly when that enumeration holds
    strictly more than [maxCount] entries after the skipped ones. *)
Theorem getCommitsPaginated_lookahead r options :
  let maxCount := default 500 (opt_maxCount options) in
  let skip := default 0 (opt_skip options) in
  let firstParent := default false (opt_firstParent options) in
  0 < maxCount →
  log_error r firstParent (maxCount + 1) skip = None →
  ∃ res, getCommitsPaginated r options = Ok res ∧
    length (commits res) ≤ maxCount ∧
    commits res = map toCommit (take maxCount (drop skip (history r firstParent))) ∧
    (hasMore res = true ↔ maxCount < length (drop skip (history r firstParent))).
Proof.
  intros maxCount skip firstParent _ Hlog.
  eexists. split; [apply getCommitsPaginated_Ok, Hlog|]. simpl.
  split; [rewrite length_map, length_take; lia|].
  split; [reflexivity|]. apply bool_decide_eq_true.
Qed.

Lemma getCommitsPaginated_lookahead_witness :
  0 < 2 ∧
  ∃ res, getCommitsPaginated Samples.mergeRepo (Samples.page 2 0 false) = Ok res ∧
         length (commits res) = 2 ∧ hasMore res = true.
Proof.
  split; [lia|].
  destruct (getCommitsPaginated_lookahead Samples.mergeRepo (Samples.page 2 0 false))
    as (res & Hres & _ & Hc & Hmore); [vm_compute; lia | reflexivity |].
  exists res. split; [exact Hres|].
  split; [rewrite Hc; reflexivity | apply Hmore; vm_compute; lia].
Defined.

(** A first-parent page of a history with a merge: two of the three
    counted commits are delivered and nothing follows, so [hasMore] is false
    although [0 + 2 < 3]. The equation of C7 fails there. *)
Lemma hasMore_by_total_fails :
  ∃ res, getCommitsPaginated Samples.mergeRepo (Samples.page 10 0 true) = Ok res ∧
         length (commits res) = 2 ∧ total res = 3%Z ∧
         hasMore res = false ∧
         hasMore res ≠ bool_decide (Z.of_nat (0 + length (commits res)) < total res)%Z.
Proof.
  eexists. split; [reflexivity|]. repeat split.
  vm_compute. discriminate.
Qed.

(** C7 (amended). [hasMore] compares the commits delivered so far with the
    length of the log enumeration under the [firstParent] setting of the
    request; it agrees with the comparison against [total] whenever [total]
    is that length. *)
Theorem hasMore_by_enumeration r options res :
  let skip := default 0 (opt_skip options) in
  let firstParent := default false (opt_firstParent options) in
  0 < default 500 (opt_maxCount options) →
  getCommitsPaginated r options = Ok res →
  hasMore res = bool_decide (skip + length (commits res) < length (history r firstParent)) ∧
  (total res = Z.of_nat (length (history r firstParent)) →
   hasMore res = bool_decide (Z.of_nat (skip + length (commits res)) < total res)%Z).
Proof.
  intros skip firstParent _ Hres.
  assert (hasMore res = bool_decide (skip + length (commits res) < length (history r firstParent)))
    as Hmore.
  { rewrite (page_length _ _ _ Hres).
    apply getCommitsPaginated_inv in Hres as (_ & _ & _ & ->).
    fold skip firstParent. apply bool_decide_ext. rewrite length_drop. lia. }
  split; [exact Hmore|].
  intros ->. rewrite Hmore. apply bool_decide_ext. lia.
Qed.

Lemma hasMore_by_enumeration_witness :
  ∃ res, getCommitsPaginated Samples.mergeRepo (Samples.page 10 0 true) = Ok res ∧
         hasMore res = false ∧ length (commits res) = 2 ∧ total res = 3%Z.
Proof.
  eexists. split; [reflexivity|].
  split; [|split; reflexivity].
  apply (hasMore_by_enumeration Samples.mergeRepo (Samples.page 10 0 true));
    [vm_compute; lia | reflexivity].
Defined.

(** The boundary case of the specification: a fetch that skips the whole
    enumeration returns no commit and [hasMore = false]. *)
Lemma getCommitsPaginated_at_end r options res :
  default 0 (opt_skip options) = length (history r (default false (opt_firstParent options))) →
  getCommitsPaginated r options = Ok res →
  commits res = [] ∧ hasMore res = false.
Proof.
  intros Hskip (_ & -> & _ & ->)%getCommitsPaginated_inv.
  rewrite Hskip, drop_all. rewrite take_nil. split; [reflexivity|].
  apply bool_decide_eq_false. simpl. lia.
Qed.

End PaginationClaims.

(** ** Chunk generator *)

Section Generator.
Import GitService.

(** One turn of the loop, without the bookkeeping of the recursion. *)
Lemma streamCommits_from_unfold r chunkSize firstParent total skip :
  streamCommits_from r chunkSize firstParent total skip =
    match getCommitsPaginated r (pageOptions chunkSize skip firstParent) with
    | Throw e => {| yielded := []; thrown := Some e |}
    | Ok result =>
        yield (chunkOf result skip total)
              (if lastPage result then {| yielded := []; thrown := None |}
               else streamCommits_from r chunkSize firstParent total (skip + chunkSize))
    end.
Proof.
  funelim (streamCommits_from r chunkSize firstParent total skip).
  all: repeat match goal with
              | H : getCommitsPaginated _ _ = _ |- _ => rewrite H
              | H : lastPage _ = _ |- _ => rewrite H
              end; reflexivity.
Qed.

(** Induction along the iterations of the loop. *)
Lemma streamCommits_from_ind (P : nat → Stream → Prop) r chunkSize firstParent total :
  (∀ skip e,
     getCommitsPaginated r (pageOptions chunkSize skip firstParent) = Throw e →
     P skip {| yielded := []; thrown := Some e |}) →
  (∀ skip result,
     getCommitsPaginated r (pageOptions chunkSize skip firstParent) = Ok result →
     lastPage result = true →
     P skip (yield (chunkOf result skip total) {| yielded := []; thrown := None |})) →
  (∀ skip result,
     getCommitsPaginated r (pageOptions chunkSize skip firstParent) = Ok result →
     lastPage result = false →
     P (skip + chunkSize) (streamCommits_from r chunkSize firstParent total (skip + chunkSize)) →
     P skip (yield (chunkOf result skip total)
                   (streamCommits_from r chunkSize firstParent total (skip + chunkSize)))) →
  ∀ skip, P skip (streamCommits_from r chunkSize firstParent total skip).
Proof.
  intros Pthrow Plast Pstep skip.
  funelim (streamCommits_from r chunkSize firstParent total skip); eauto.
  match goal with
  | IH : ∀ P : nat → Stream → Prop, _ |- _ =>
      apply Pstep; [assumption.. | apply IH; assumption]
  end.
Qed.

(** The loop yields before it tests for the end: a page that can be read
    becomes a chunk. *)
Lemma streamCommits_from_head r chunkSize firstParent total skip :
  log_error r firstParent (chunkSize + 1) skip = None →
  ∃ rest,
    yielded (streamCommits_from r chunkSize firstParent total skip) =
      {| chunk_commits := map toCommit (take chunkSize (drop skip (history r firstParent)));
         progress :=
           progressOf (skip + length (take chunkSize (drop skip (history r firstParent)))) total;
         chunk_total := total |} :: rest.
Proof.
  intros Hlog. rewrite streamCommits_from_unfold.
  rewrite (getCommitsPaginated_Ok r (pageOptions chunkSize skip firstParent) Hlog).
  simpl. unfold chunkOf; simpl. rewrite length_map. eauto.
Qed.

(** A run that yields nothing is a run whose first page could not be read. *)
Lemma streamCommits_from_nil r chunkSize firstParent total skip :
  yielded (streamCommits_from r chunkSize firstParent total skip) = [] →
  ∃ e, log_error r firstParent (chunkSize + 1) skip = Some e ∧
       thrown (streamCommits_from r chunkSize firstParent total skip) = Some e.
Proof.
  destruct (log_error r firstParent (chunkSize + 1) skip) as [e|] eqn:Hlog.
  - intros _. exists e. split; [reflexivity|].
    rewrite streamCommits_from_unfold.
    rewrite (getCommitsPaginated_Throw r (pageOptions chunkSize skip firstParent) e Hlog).
    reflexivity.
  - destruct (streamCommits_from_head r chunkSize firstParent total skip Hlog) as [rest ->].
    discriminate.
Qed.

(** Without a failing log call the generator returns normally. *)
Lemma streamCommits_from_returns r chunkSize firstParent total skip :
  (∀ n k, log_error r firstParent n k = None) →
  thrown (streamCommits_from r chunkSize firstParent total skip) = None.
Proof.
  intros Hlog. revert skip.
  apply (streamCommits_from_ind (λ _ s, thrown s = None)); simpl; auto.
  intros skip e He.
  rewrite (getCommitsPaginated_Ok r (pageOptions chunkSize skip firstParent) (Hlog _ _)) in He.
  discriminate.
Qed.

(** On a history that has been read to its end the loop yields one empty
    chunk and returns. *)
Lemma streamCommits_from_exhausted r chunkSize firstParent total skip :
  log_error r firstParent (chunkSize + 1) skip = None →
  length (history r firstParent) ≤ skip →
  streamCommits_from r chunkSize firstParent total skip =
    {| yielded := [ {| chunk_commits := []; progress := progressOf skip total;
                       chunk_total := total |} ];
       thrown := None |}.
Proof.
  intros Hlog Hlen. rewrite streamCommits_from_unfold.
  rewrite (getCommitsPaginated_Ok r (pageOptions chunkSize skip firstParent) Hlog).
  simpl. rewrite drop_ge by exact Hlen. rewrite take_nil. simpl.
  unfold lastPage, chunkOf, yield; simpl.
  rewrite Nat.add_0_r. reflexivity.
Qed.

(** With a positive chunk size and no failing log call, the chunks are the
    history from [skip] on, cut into pieces and kept in order. *)
Lemma streamCommits_from_concat r chunkSize firstParent total skip :
  0 < chunkSize →
  (∀ n k, log_error r firstParent n k = None) →
  concat (map chunk_commits (yielded (streamCommits_from r chunkSize firstParent total skip))) =
    map toCommit (drop skip (history r firstParent)).
Proof.
  intros Hpos Hlog. revert skip.
  apply (streamCommits_from_ind
           (λ skip s, concat (map chunk_commits (yielded s)) =
                      map toCommit (drop skip (history r firstParent)))).
  - intros skip e He.
    rewrite (getCommitsPaginated_Ok r (pageOptions chunkSize skip firstParent) (Hlog _ _)) in He.
    discriminate.
  - intros skip res (_ & Hc & _ & Hm)%getCommitsPaginated_inv Hlast.
    simpl in *. rewrite app_nil_r, Hc. f_equal. apply take_ge.
    unfold lastPage in Hlast. rewrite Hm, Hc in Hlast.
    apply orb_true_iff in Hlast as [Hlast | Hempty].
    + apply negb_true_iff, bool_decide_eq_false in Hlast. lia.
    + apply bool_decide_eq_true in Hempty.
      rewrite length_map, length_take in Hempty. lia.
  - intros skip res (_ & Hc & _ & _)%getCommitsPaginated_inv _ IH.
    simpl in *. rewrite IH, Hc, <- map_app. f_equal.
    rewrite <- drop_drop. apply take_drop.
Qed.

(** The progress values of a run are the images, under the one function
    [n => progressOf n total], of the numbers of commits delivered so far,
    and these numbers never decrease from one chunk to the next. *)
Lemma streamCommits_from_loaded r chunkSize firstParent total skip :
  ∃ loaded : list nat,
    map progress (yielded (streamCommits_from r chunkSize firstParent total skip)) =
      map (λ n, progressOf n total) loaded ∧
    Forall (le skip) loaded ∧
    StronglySorted le loaded.
Proof.
  revert skip.
  apply (streamCommits_from_ind
           (λ skip s, ∃ loaded : list nat,
              map progress (yielded s) = map (λ n, progressOf n total) loaded ∧
              Forall (le skip) loaded ∧ StronglySorted le loaded)).
  - intros skip e _. exists []. repeat constructor.
  - intros skip res _ _. exists [skip + length (commits res)]. simpl.
    split; [reflexivity|]. split; repeat constructor. lia.
  - intros skip res Hres _ (loaded & Hmap & Hge & Hsorted).
    exists (skip + length (commits res) :: loaded). simpl.
    pose proof (page_length _ _ _ Hres) as Hlen. simpl in Hlen.
    split; [rewrite Hmap; reflexivity|]. split.
    + constructor; [lia|]. eapply Forall_impl; [exact Hge|]. simpl. lia.
    + constructor; [exact Hsorted|]. eapply Forall_impl; [exact Hge|]. simpl. lia.
Qed.

End Generator.

Section GeneratorClaims.
Import GitService.

(** C10 as first stated asks for a chunk from every repository handle. The
    first [git log] call is awaited before the first [yield]: on a
    repository whose log cannot be read the generator ends with the error
    of that call and has yielded nothing. *)
Lemma streamCommits_unreadable_log :
  yielded (streamCommits Samples.unreadableLog None None) = [] ∧
  thrown (streamCommits Samples.unreadableLog None None) = Some "fatal: bad object HEAD" ∧
  ¬ (1 ≤ length (yielded (streamCommits Samples.unreadableLog None None))).
Proof.
  assert (streamCommits Samples.unreadableLog None None =
          {| yielded := []; thrown := Some "fatal: bad object HEAD" |}) as ->.
  { vm_compute. reflexivity. }
  split; [reflexivity|]. split; [reflexivity|]. simpl. lia.
Qed.

(** C10 (amended). [streamCommits] yields before it tests for the end of
    the history: a run that returns normally, and more generally every run
    whose first page can be read, has yielded at least one chunk. On a
    repository without commits (empty enumeration, total 0) whose log can
    be read it yields exactly one chunk, with an empty batch and
    [total = 0], and then returns. *)
Theorem streamCommits_yields_first r (chunkSize : option nat) (firstParent : option bool) :
  let s := streamCommits r chunkSize firstParent in
  let firstPage := log_error r (default false firstParent) (default 500 chunkSize + 1) 0 in
  (thrown s = None → yielded s ≠ []) ∧
  (firstPage = None → yielded s ≠ []) ∧
  (firstPage = None →
   history r (default false firstParent) = [] →
   getTotalCommitCount r = 0%Z →
   thrown s = None ∧
   ∃ c, yielded s = [c] ∧ chunk_commits c = [] ∧ chunk_total c = 0%Z).
Proof.
  intros s firstPage. subst s firstPage. unfold streamCommits.
  set (cs := default 500 chunkSize). set (fp := default false firstParent).
  set (total := getTotalCommitCount r).
  split; [|split].
  - intros Hret Hnil.
    apply streamCommits_from_nil in Hnil as (e & _ & He). congruence.
  - intros Hlog.
    destruct (streamCommits_from_head r cs fp total 0 Hlog) as [rest ->]. discriminate.
  - intros Hlog Hnil Hzero.
    rewrite (streamCommits_from_exhausted r cs fp total 0 Hlog) by (rewrite Hnil; simpl; lia).
    simpl. split; [reflexivity|]. eexists. split; [reflexivity|]. split; [reflexivity|].
    exact Hzero.
Qed.

Lemma streamCommits_yields_first_witness :
  thrown (streamCommits Samples.emptyRepo (Some 1000) None) = None ∧
  length (yielded (streamCommits Samples.emptyRepo (Some 1000) None)) = 1.
Proof.
  destruct (streamCommits_yields_first Samples.emptyRepo (Some 1000) None)
    as (_ & _ & Hempty).
  destruct (Hempty eq_refl eq_refl eq_refl) as (Hret & c & Hc & _).
  split; [exact Hret | rewrite Hc; reflexivity].
Defined.

(** The progress of a chunk that completes nothing of nothing is [0 / 0]. *)
Lemma progressOf_zero_of_zero : progressOf 0 0 = PrimFloat.nan.
Proof. reflexivity. Qed.

(** C4, on the repository without commits: the only chunk carries the
    progress value NaN, which is outside the range 0 to 100. *)
Theorem streamCommits_empty_repo_progress :
  map progress (yielded (streamCommits Samples.emptyRepo (Some 1000) None)) = [PrimFloat.nan] ∧
  forallb validProgress
    (map progress (yielded (streamCommits Samples.emptyRepo (Some 1000) None))) = false.
Proof. split; reflexivity. Qed.

(** The same holds for every repository without commits and every chunk size. *)
Lemma streamCommits_no_commits_progress r chunkSize firstParent :
  log_error r (default false firstParent) (default 500 chunkSize + 1) 0 = None →
  history r (default false firstParent) = [] →
  getTotalCommitCount r = 0%Z →
  map progress (yielded (streamCommits r chunkSize firstParent)) = [PrimFloat.nan].
Proof.
  intros Hlog Hnil Hzero. unfold streamCommits.
  rewrite (streamCommits_from_exhausted _ _ _ _ 0 Hlog) by (rewrite Hnil; simpl; lia).
  rewrite Hzero. reflexivity.
Qed.

(** The scenario of the specification: 2437 commits streamed in chunks of
    1000 arrive in three chunks of 1000, 1000 and 437 commits with progress
    41, 82 and 100. *)
Example streamCommits_scenario_2437 :
  let s := streamCommits (Samples.linearRepo 2437) (Some 1000) None in
  thrown s = None ∧
  map (λ c, length (chunk_commits c)) (yielded s) = [1000; 1000; 437] ∧
  map progress (yielded s) = [41; 82; 100]%float ∧
  map chunk_total (yielded s) = [2437; 2437; 2437]%Z.
Proof. vm_compute. repeat split. Qed.

(** A count that could not be read is reported as 0: the division then
    yields Infinity, which is cut to 100. *)
Example streamCommits_uncounted :
  map progress
      (yielded (streamCommits (Samples.repo [Samples.entry "a" ""] [Samples.entry "a" ""] 0)
                              (Some 10) None)) = [100%float].
Proof. reflexivity. Qed.

End GeneratorClaims.

(** ** Streaming endpoint *)

Section Endpoint.
Import GitService Routes.

Lemma forEach_write chunks res :
  forEach chunks (λ chunk, res_write (commits_event chunk)) res =
    (Ok (), {| statusCode := statusCode res; jsonBody := jsonBody res;
               headers := headers res;
               written := written res ++ map commits_event chunks;
               ended := ended res |}).
Proof.
  revert res. induction chunks as [|c chunks IH]; intros res; simpl.
  - unfold pure. rewrite app_nil_r. destruct res; reflexivity.
  - unfold andThen at 1. unfold res_write at 1. rewrite IH. simpl.
    rewrite <- app_assoc. reflexivity.
Qed.

(** The response of the endpoint, case by case. *)
Lemma respond_invalid r q :
  validateRepository r = false →
  respond r q = {| statusCode := Some 400; jsonBody := Some "Not a valid git repository";
                   headers := []; written := []; ended := true |}.
Proof.
  intros Hv. unfold respond, stream, tryCatch, andThen, await. rewrite Hv. reflexivity.
Qed.

Lemma events_no_metadata r q e :
  validateRepository r = true →
  getRepositoryMetadata r = Throw e →
  events r q = [error_event e] ∧ ended (respond r q) = true.
Proof.
  intros Hv Hm. unfold events, respond, stream, tryCatch, andThen, await.
  rewrite Hv, Hm. split; reflexivity.
Qed.

Lemma respond_streamed r q md :
  validateRepository r = true →
  getRepositoryMetadata r = Ok md →
  let s := streamCommits r (Some (chunkSizeOf q)) (Some (firstParentOf q)) in
  respond r q =
    {| statusCode := None; jsonBody := None; headers := sseHeaders;
       written := metadata_event md :: map commits_event (yielded s) ++ [closing s];
       ended := true |}.
Proof.
  intros Hv Hm s. unfold respond, stream, tryCatch.
  unfold andThen at 1. unfold await at 1. rewrite Hv. simpl.
  unfold andThen at 1. unfold res_setHeader at 1.
  unfold andThen at 1. unfold res_setHeader at 1.
  unfold andThen at 1. unfold res_setHeader at 1.
  unfold andThen at 1. unfold res_setHeader at 1.
  unfold andThen at 1. unfold await at 1. rewrite Hm.
  unfold andThen at 1. unfold res_write at 1.
  unfold andThen at 1. unfold forAwait. unfold andThen at 1.
  rewrite forEach_write. fold s. unfold closing. simpl.
  destruct (thrown s) as [e|]; reflexivity.
Qed.

Lemma events_streamed r q md :
  validateRepository r = true →
  getRepositoryMetadata r = Ok md →
  let s := streamCommits r (Some (chunkSizeOf q)) (Some (firstParentOf q)) in
  events r q = metadata_event md :: map commits_event (yielded s) ++ [closing s].
Proof. intros Hv Hm s. unfold events. rewrite (respond_streamed r q md Hv Hm). reflexivity. Qed.

Lemma closing_terminal s : isTerminal (closing s) = true.
Proof. unfold closing. destruct (thrown s); reflexivity. Qed.




(** A failure in the middle of the stream: the first chunk is delivered,
    the second page fails, and the error event closes the stream. *)
Example stream_failing_second_page :
  ∃ md c,
    events Samples.failingSecondPage {| q_chunkSize := Some 2; q_firstParent := None |} =
      [metadata_event md; commits_event c; error_event "git log failed"] ∧
    map hash (chunk_commits c) = ["c"; "b"].
Proof. eexists. eexists. split; reflexivity. Qed.

End Endpoint.

(** ** Streaming consumer *)

Section Consumer.
Import RepositoryStore.
Context `{Locale}.

Lemma consume_app cbs1 cbs2 s :
  consume (cbs1 ++ cbs2) s = consume cbs2 (consume cbs1 s).
Proof. apply foldl_app. Qed.

Lemma onMetadata_merged metadata st : merged (onMetadata metadata (openSession st)) [].
Proof. split; [reflexivity|]. eexists. repeat split. Qed.

(** A chunk is appended to the buffer, and the view is rebuilt from the buffer. *)
Lemma onCommits_merged commits progress total s cs :
  merged s cs → merged (onCommits commits progress total s) (cs ++ commits).
Proof.
  intros (Hbuf & repo & Hrepo & _ & _). split; simpl.
  - rewrite Hbuf. reflexivity.
  - rewrite Hrepo, Hbuf. eexists. repeat split.
Qed.

(** Without a repository view there is nothing to merge into: the chunk
    only reaches the buffer. *)
Lemma onCommits_no_view commits progress total s :
  repository (store s) = None →
  repository (store (onCommits commits progress total s)) = None.
Proof. intros Hnone. simpl. rewrite Hnone. reflexivity. Qed.

Lemma consume_chunks_merged chunks s cs :
  merged s cs →
  merged (consume (map ofChunk chunks) s) (cs ++ concat (map chunk_commits chunks)).
Proof.
  revert s cs. induction chunks as [|c chunks IH]; intros s cs Hm; simpl.
  - rewrite app_nil_r. exact Hm.
  - rewrite app_assoc. apply IH. apply onCommits_merged, Hm.
Qed.

Lemma length_chunks (chunks : list Chunk) :
  length (concat (map chunk_commits chunks)) =
    sum_list (map (λ c, length (chunk_commits c)) chunks).
Proof.
  induction chunks as [|c chunks IH]; simpl; [reflexivity|].
  rewrite length_app, IH. reflexivity.
Qed.

(** C3. After the metadata event and the commits events carrying the
    chunks [c1 .. cn], consumed in this order, the commits of the
    repository view are [c1 ++ .. ++ cn], in arrival order and with nothing
    dropped, de-duplicated or re-sorted, and [loadedCommitCount] is
    [|c1| + .. + |cn|]. *)
Theorem streaming_merge st metadata (chunks : list Chunk) :
  let s := consume (Metadata metadata :: map ofChunk chunks) (openSession st) in
  ∃ repo,
    repository (store s) = Some repo ∧
    repo_commits repo = concat (map chunk_commits chunks) ∧
    loadedCommitCount repo = Some (sum_list (map (λ c, length (chunk_commits c)) chunks)).
Proof.
  intros s. subst s. simpl.
  destruct (consume_chunks_merged chunks _ _ (onMetadata_merged metadata st))
    as (_ & repo & Hrepo & Hcommits & Hcount).
  exists repo. simpl in Hcommits, Hcount.
  rewrite <- length_chunks. auto.
Qed.

(** The same holds from any state of a load in which the view shows the
    buffer, for instance when further chunks arrive after earlier ones. *)
Lemma streaming_merge_resumed chunks s cs :
  merged s cs →
  ∃ repo,
    repository (store (consume (map ofChunk chunks) s)) = Some repo ∧
    repo_commits repo = cs ++ concat (map chunk_commits chunks) ∧
    loadedCommitCount repo =
      Some (length cs + sum_list (map (λ c, length (chunk_commits c)) chunks)).
Proof.
  intros Hm. destruct (consume_chunks_merged chunks s cs Hm) as (_ & repo & ? & ? & Hcount).
  exists repo. rewrite length_app, length_chunks in Hcount. auto.
Qed.

(** C8. The error handler stores the message of the error as it is, stops
    the load and leaves the repository view and the buffer untouched: an
    error that arrives after the chunks [c1 .. cn] leaves the view with
    the commits [c1 ++ .. ++ cn]. The handler keeps no stream handle and
    starts nothing. *)
Theorem onError_keeps_progress e :
  (∀ s,
     repository (store (onError e s)) = repository (store s) ∧
     allCommits (onError e s) = allCommits s ∧
     error (store (onError e s)) = Some e ∧
     isLoading (store (onError e s)) = false ∧
     abortStream (store (onError e s)) = None) ∧
  (∀ st metadata (chunks : list Chunk),
     let s := consume (Metadata metadata :: map ofChunk chunks ++ [Error e]) (openSession st) in
     error (store s) = Some e ∧
     ∃ repo,
       repository (store s) = Some repo ∧
       repo_commits repo = concat (map chunk_commits chunks) ∧
       loadedCommitCount repo = Some (sum_list (map (λ c, length (chunk_commits c)) chunks))).
Proof.
  split.
  - intros s. repeat split.
  - intros st metadata chunks s. subst s.
    rewrite app_comm_cons, consume_app. simpl.
    split; [reflexivity|].
    destruct (consume_chunks_merged chunks _ _ (onMetadata_merged metadata st))
      as (_ & repo & Hrepo & Hcommits & Hcount).
    exists repo. simpl in Hcommits, Hcount.
    rewrite <- length_chunks. auto.
Qed.

(** The scenario of the specification, seen from the client: the three
    chunks of the 2437-commit stream leave [loadedCommitCount = 2437], and
    the progress shown after the last chunk is 100. *)
Example streaming_scenario_2437 st metadata :
  let chunks :=
    GitService.yielded (GitService.streamCommits (Samples.linearRepo 2437) (Some 1000) None) in
  let s := consume (Metadata metadata :: map ofChunk chunks) (openSession st) in
  loadingProgress (store s) = 100%float ∧
  ∃ repo, repository (store s) = Some repo ∧
          length (repo_commits repo) = 2437 ∧
          loadedCommitCount repo = Some 2437.
Proof.
  intros chunks s. subst s. simpl.
  destruct (consume_chunks_merged chunks _ _ (onMetadata_merged metadata st))
    as (_ & repo & Hrepo & Hcommits & Hcount).
  assert (length (concat (map chunk_commits chunks)) = 2437) as Hlen
    by (subst chunks; vm_compute; reflexivity).
  split.
  - subst chunks. vm_compute. reflexivity.
  - exists repo. simpl in Hcommits, Hcount. rewrite Hcommits, Hcount, Hlen. auto.
Qed.

End Consumer.

(** ** Graph layout *)

Section Layout.
Import LayoutEngine.
Context `{Collaborators}.
Implicit Types (commits : list Commit) (commit : Commit) (commitSet : gset string).
Implicit Types (colorMap : gmap string string) (acc : Graph * list CommitEdge).

(** *** The edge list *)

Lemma addParent_edges commitSet colorMap commit acc (ip : nat * string) :
  (addParent commitSet colorMap commit acc ip).2 =
    acc.2 ++ (if bool_decide (ip.2 ∈ commitSet)
              then [mkEdge colorMap commit ip.1 ip.2] else []).
Proof.
  destruct ip as [i p]. unfold addParent. simpl.
  case_bool_decide; simpl; [reflexivity | rewrite app_nil_r; reflexivity].
Qed.

Lemma foldl_addParent_edges commitSet colorMap commit (ips : list (nat * string)) acc :
  (foldl (addParent commitSet colorMap commit) acc ips).2 =
    acc.2 ++ omap (λ ip : nat * string,
                     if bool_decide (ip.2 ∈ commitSet)
                     then Some (mkEdge colorMap commit ip.1 ip.2) else None) ips.
Proof.
  revert acc. induction ips as [|ip ips IH]; intros acc; simpl.
  - rewrite app_nil_r. reflexivity.
  - rewrite IH, addParent_edges, <- app_assoc. f_equal.
    case_bool_decide; reflexivity.
Qed.

Lemma addParents_edges commitSet colorMap acc commit :
  (addParents commitSet colorMap acc commit).2 =
    acc.2 ++ parentEdges commitSet colorMap commit.
Proof. apply foldl_addParent_edges. Qed.

Lemma foldl_addParents_edges commitSet colorMap commits acc :
  (foldl (addParents commitSet colorMap) acc commits).2 =
    acc.2 ++ flat_map (parentEdges commitSet colorMap) commits.
Proof.
  revert acc. induction commits as [|c commits IH]; intros acc; simpl.
  - rewrite app_nil_r. reflexivity.
  - rewrite IH, addParents_edges, <- app_assoc. reflexivity.
Qed.

(** The edges of a layout are the edges of its commits, commit by commit. *)
Lemma layout_edges commits options graphSettings :
  edges (layoutCommitGraph commits options graphSettings) =
    flat_map (parentEdges (list_to_set (map hash commits)) (colorMapOf commits graphSettings))
             commits.
Proof.
  unfold layoutCommitGraph, colorMapOf. case_bool_decide as Hlen.
  - destruct commits; [reflexivity | discriminate Hlen].
  - match goal with
    | |- context [foldl (addParents ?cs ?cm) ?acc commits] =>
        pose proof (foldl_addParents_edges cs cm commits acc) as Hfold;
        destruct (foldl (addParents cs cm) acc commits) as [g es]
    end.
    simpl in *. exact Hfold.
Qed.

Lemma elem_of_parentEdges e commitSet colorMap commit :
  e ∈ parentEdges commitSet colorMap commit ↔
  ∃ i p, parents commit !! i = Some p ∧ p ∈ commitSet ∧ e = mkEdge colorMap commit i p.
Proof.
  unfold parentEdges. rewrite list_elem_of_omap. split.
  - intros ([i p] & Hin & He). apply elem_of_lookup_imap in Hin as (j & q & [= -> ->] & Hq).
    simpl in He. case_bool_decide; [|discriminate]. injection He as <-. eauto.
  - intros (i & p & Hp & Hset & ->). exists (i, p). split.
    + apply elem_of_lookup_imap. eauto.
    + simpl. rewrite bool_decide_eq_true_2 by assumption. reflexivity.
Qed.

(** Whatever the index of the first parent is called, the ends of the
    edges are the present parents, in order. *)
Lemma parentEdges_ends_from commitSet colorMap commit (k : nat) (ps : list string) :
  map ends (omap (λ ip : nat * string,
                    if bool_decide (ip.2 ∈ commitSet)
                    then Some (mkEdge colorMap commit ip.1 ip.2) else None)
                 (imap (λ i p, (k + i, p)) ps)) =
    map (λ p, (hash commit, p)) (filter (λ p, p ∈ commitSet) ps).
Proof.
  revert k. induction ps as [|p ps IH]; intros k; [reflexivity|].
  simpl. rewrite filter_cons.
  rewrite (imap_ext _ (λ i q, (S k + i, q))) by (intros; simpl; f_equal; lia).
  case_bool_decide; case_decide; try contradiction; simpl;
    rewrite <- (IH (S k)); reflexivity.
Qed.

Lemma parentEdges_ends commitSet colorMap commit :
  map ends (parentEdges commitSet colorMap commit) =
    map (λ p, (hash commit, p)) (filter (λ p, p ∈ commitSet) (parents commit)).
Proof. apply (parentEdges_ends_from commitSet colorMap commit 0). Qed.

(** C5. The edges of a layout are, commit by commit and parent by parent,
    the child-to-parent relations whose parent is among the commits laid
    out: one edge for each, none else. As a set they are
    [{(c.hash, p) : c in S, p in c.parents, p in hashes(S)}]; both ends of
    every edge are hashes of [S], and the edge of the parent at index [i]
    is tagged [isMerge = (i > 0)]. *)
Theorem layout_edge_set commits options graphSettings :
  let L := layoutCommitGraph commits options graphSettings in
  let hashes := map hash commits in
  map ends (edges L) =
    flat_map (λ c, map (λ p, (hash c, p)) (filter (λ p, p ∈ hashes) (parents c))) commits ∧
  (∀ s t, (s, t) ∈ map ends (edges L) ↔
          ∃ c, c ∈ commits ∧ hash c = s ∧ t ∈ parents c ∧ t ∈ hashes) ∧
  (∀ e, e ∈ edges L →
        source e ∈ hashes ∧ target e ∈ hashes ∧
        ∃ c i, c ∈ commits ∧ parents c !! i = Some (target e) ∧
               source e = hash c ∧ isMerge (edge_data e) = bool_decide (0 < i)).
Proof.
  intros L hashes. subst L. rewrite layout_edges.
  set (commitSet := list_to_set (map hash commits) : gset string).
  set (colorMap := colorMapOf commits graphSettings).
  assert (∀ p, p ∈ commitSet ↔ p ∈ hashes) as Hset
    by (intros p; apply elem_of_list_to_set).
  assert (∀ cs, map ends (flat_map (parentEdges commitSet colorMap) cs) =
                flat_map (λ c, map (λ p, (hash c, p)) (filter (λ p, p ∈ hashes) (parents c)))
                         cs) as Hends.
  { induction cs as [|c cs IH]; [reflexivity|].
    simpl. rewrite map_app, IH, parentEdges_ends. f_equal. f_equal.
    apply list_filter_iff, Hset. }
  specialize (Hends commits).
  split; [exact Hends|]. split.
  - intros s t. rewrite Hends, list_elem_of_In, in_flat_map. split.
    + intros (c & Hc & Hin). apply in_map_iff in Hin as (p & [= <- <-] & Hp).
      apply list_elem_of_In, list_elem_of_filter in Hp as [Hp Hpar].
      exists c. rewrite list_elem_of_In. auto.
    + intros (c & Hc & <- & Hpar & Hp). exists c. split; [apply list_elem_of_In, Hc|].
      apply in_map_iff. exists t. split; [reflexivity|].
      apply list_elem_of_In, list_elem_of_filter. auto.
  - intros e He. apply list_elem_of_In, in_flat_map in He as (c & Hc & He).
    apply list_elem_of_In in Hc, He.
    apply elem_of_parentEdges in He as (i & p & Hp & Hin & ->). simpl.
    split; [apply list_elem_of_In, in_map, list_elem_of_In, Hc|].
    split; [apply Hset, Hin|]. exists c, i. auto.
Qed.

(** *** The nodes *)

(** One node per commit handed in, in the same order, each carrying its commit. *)
Lemma layout_nodes_commits commits options graphSettings :
  let L := layoutCommitGraph commits options graphSettings in
  map node_id (nodes L) = map hash commits ∧
  map (λ n, commit (data n)) (nodes L) = commits.
Proof.
  intros L. subst L. unfold layoutCommitGraph. case_bool_decide as Hlen.
  - destruct commits; [split; reflexivity | discriminate Hlen].
  - match goal with |- context [foldl ?f ?a commits] => destruct (foldl f a commits) end.
    simpl. rewrite !map_map. simpl. split; [reflexivity | apply map_id].
Qed.

(** C6. Two layouts of the same commits under the same options, compact
    mode and colour strategy, which differ in the set of highlighted
    commits only, give every node the same position (and the same id,
    commit, colour and compact flag) and have the same edges; the set only
    decides the [isHighlighted] flag of each node. *)
Theorem layout_ignores_highlight commits options (compact byAuthor : bool)
    (highlighted1 highlighted2 : gset string) :
  let settings h :=
    {| compactMode := compact; colorByAuthor := byAuthor; highlightedCommits := h |} in
  let L1 := layoutCommitGraph commits options (settings highlighted1) in
  let L2 := layoutCommitGraph commits options (settings highlighted2) in
  map position (nodes L1) = map position (nodes L2) ∧
  map (λ n, (node_id n, node_type n, commit (data n), color (data n), isCompact (data n)))
      (nodes L1) =
  map (λ n, (node_id n, node_type n, commit (data n), color (data n), isCompact (data n)))
      (nodes L2) ∧
  edges L1 = edges L2 ∧
  map (λ n, isHighlighted (data n)) (nodes L1) =
    map (λ c, bool_decide (hash c ∈ highlighted1)) commits ∧
  map (λ n, isHighlighted (data n)) (nodes L2) =
    map (λ c, bool_decide (hash c ∈ highlighted2)) commits.
Proof.
  intros settings L1 L2. subst settings L1 L2.
  unfold layoutCommitGraph. simpl. case_bool_decide as Hlen.
  - destruct commits; [repeat split | discriminate Hlen].
  - match goal with |- context [foldl ?f ?a commits] => destruct (foldl f a commits) as [g es] end.
    simpl. rewrite !map_map. simpl. repeat split.
Qed.

(** The scenario of the specification: [A] with parent [B], both laid out,
    and the isolated [C] give three nodes and the single edge [(A, B)]. *)
Example layout_scenario options graphSettings :
  let mk h ps := {| hash := h; shortHash := h; message := ""; body := "";
                    author := {| author_name := ""; author_email := "" |};
                    date := ""; parents := ps; refs := [] |} in
  let L := layoutCommitGraph [mk "A" ["B"]; mk "B" []; mk "C" []] options graphSettings in
  map node_id (nodes L) = ["A"; "B"; "C"] ∧ map ends (edges L) = [("A", "B")].
Proof.
  intros mk L. subst L. split.
  - apply layout_nodes_commits.
  - rewrite layout_edges. reflexivity.
Qed.

(** An edge to a parent that is not laid out is dropped, not reported. *)
Example layout_absent_parent options graphSettings :
  let mk h ps := {| hash := h; shortHash := h; message := ""; body := "";
                    author := {| author_name := ""; author_email := "" |};
                    date := ""; parents := ps; refs := [] |} in
  edges (layoutCommitGraph [mk "A" ["Z"]] options graphSettings) = [].
Proof. intros mk. rewrite layout_edges. reflexivity. Qed.

End Layout.

(** * Further properties of the backend *)

(** ** Pages and chunks *)

Section Paging.
Import GitService.

(** X1. Two fetches that follow each other, the second one skipping what
    the first one delivered, return together the page that one fetch of
    [n + m] commits returns: nothing is lost or repeated at the seam, and
    the look-ahead flag of the second fetch is the flag of the big one. *)
Theorem getCommitsPaginated_adjacent r (n m skip : nat) (fp : bool) p1 p2 :
  getCommitsPaginated r (pageOptions n skip fp) = Ok p1 →
  hasMore p1 = true →
  getCommitsPaginated r (pageOptions m (skip + n) fp) = Ok p2 →
  log_error r fp (n + m + 1) skip = None →
  getCommitsPaginated r (pageOptions (n + m) skip fp) =
    Ok {| commits := commits p1 ++ commits p2; total := total p1; hasMore := hasMore p2 |}.
Proof.
  intros (_ & Hc1 & Ht1 & Hm1)%getCommitsPaginated_inv Hmore
         (_ & Hc2 & _ & Hm2)%getCommitsPaginated_inv Hlog.
  simpl in *. rewrite (getCommitsPaginated_Ok r (pageOptions (n + m) skip fp) Hlog). simpl.
  rewrite Hm1 in Hmore. apply bool_decide_eq_true in Hmore.
  set (pending := drop skip (history r fp)) in *.
  f_equal. rewrite Hc1, Hc2, Ht1, Hm2, <- map_app. f_equal; [f_equal|].
  - rewrite <- drop_drop. fold pending.
    rewrite <- (take_drop n pending) at 1.
    rewrite take_app_add' by (rewrite length_take; lia). reflexivity.
  - apply bool_decide_ext. rewrite <- drop_drop, length_drop. fold pending. lia.
Qed.

Lemma getCommitsPaginated_adjacent_witness :
  ∃ p, getCommitsPaginated Samples.mergeRepo (pageOptions (1 + 1) 0 false) = Ok p ∧
       map hash (commits p) = ["m"; "b"] ∧ hasMore p = true.
Proof.
  eexists. split.
  - apply (getCommitsPaginated_adjacent Samples.mergeRepo 1 1 0 false _ _
             eq_refl eq_refl eq_refl eq_refl).
  - split; reflexivity.
Defined.

End Paging.

Section Chunking.
Import GitService.

(** The chunks of the store's streams, of size 1000, put end to end. *)
Lemma streamCommits_delivers_history_aux r (fp : bool) :
  (∀ n k, log_error r fp n k = None) →
  concat (map chunk_commits (yielded (streamCommits r (Some 1000) (Some fp)))) =
    map toCommit (history r fp).
Proof.
  intros Hlog. unfold streamCommits.
  assert (0 < 1000) as Hpos by lia.
  change (default 500 (Some 1000)) with 1000. change (default false (Some fp)) with fp.
  rewrite (streamCommits_from_concat r 1000 fp _ 0 Hpos Hlog). rewrite drop_0. reflexivity.
Qed.

(** X2. With a positive chunk size and no failing log call, [streamCommits]
    returns normally and its chunks, put end to end, are the whole log
    enumeration of the chosen mode, in order: no commit is lost, repeated
    or moved. *)
Theorem streamCommits_delivers_history r (chunkSize : option nat) (firstParent : option bool) :
  0 < default 500 chunkSize →
  (∀ n k, log_error r (default false firstParent) n k = None) →
  thrown (streamCommits r chunkSize firstParent) = None ∧
  concat (map chunk_commits (yielded (streamCommits r chunkSize firstParent))) =
    map toCommit (history r (default false firstParent)).
Proof.
  intros Hpos Hlog. unfold streamCommits. split.
  - apply streamCommits_from_returns, Hlog.
  - rewrite (streamCommits_from_concat _ _ _ _ 0 Hpos Hlog). rewrite drop_0. reflexivity.
Qed.

Lemma streamCommits_delivers_history_witness :
  map hash (concat (map chunk_commits
                        (yielded (streamCommits Samples.mergeRepo (Some 2) (Some true))))) =
    ["m"; "a"].
Proof.
  rewrite (proj2 (streamCommits_delivers_history Samples.mergeRepo (Some 2) (Some true)
                    ltac:(simpl; lia) (λ _ _, eq_refl))).
  reflexivity.
Defined.

Lemma streamCommits_from_shape r chunkSize firstParent total skip :
  let s := streamCommits_from r chunkSize firstParent total skip in
  ∃ full tail,
    yielded s = full ++ tail ∧
    Forall (λ c, length (chunk_commits c) = chunkSize) full ∧
    match thrown s with
    | None => ∃ last, tail = [last] ∧ length (chunk_commits last) ≤ chunkSize
    | Some _ => tail = []
    end.
Proof.
  revert skip.
  apply (streamCommits_from_ind
           (λ _ s, ∃ full tail,
              yielded s = full ++ tail ∧
              Forall (λ c, length (chunk_commits c) = chunkSize) full ∧
              match thrown s with
              | None => ∃ last, tail = [last] ∧ length (chunk_commits last) ≤ chunkSize
              | Some _ => tail = []
              end)).
  - intros skip e _. exists [], []. simpl. auto.
  - intros skip res Hres _. exists [], [chunkOf res skip total]. simpl.
    split; [reflexivity|]. split; [constructor|].
    eexists. split; [reflexivity|]. simpl.
    rewrite (page_length _ _ _ Hres). simpl. lia.
  - intros skip res Hres Hmore (full & tail & Hy & Hfull & Htail).
    exists (chunkOf res skip total :: full), tail. simpl. rewrite Hy.
    split; [reflexivity|]. split; [|exact Htail].
    constructor; [|exact Hfull]. simpl.
    rewrite (page_length _ _ _ Hres). simpl.
    apply getCommitsPaginated_inv in Hres as (_ & _ & _ & Hm). simpl in Hm.
    unfold lastPage in Hmore. apply orb_false_elim in Hmore as [Hhas _].
    rewrite Hm in Hhas. apply negb_false_iff, bool_decide_eq_true in Hhas. lia.
Qed.

Lemma streamCommits_from_nonempty r chunkSize firstParent total skip :
  0 < chunkSize → skip < length (history r firstParent) →
  Forall (λ c, chunk_commits c ≠ []) (yielded (streamCommits_from r chunkSize firstParent total skip)).
Proof.
  intros Hpos. revert skip.
  apply (streamCommits_from_ind
           (λ skip s, skip < length (history r firstParent) →
                      Forall (λ c, chunk_commits c ≠ []) (yielded s))).
  - intros skip e _ _. constructor.
  - intros skip res Hres _ Hskip. repeat constructor. simpl.
    pose proof (page_length _ _ _ Hres) as Hlen. simpl in Hlen.
    rewrite length_drop in Hlen. intros Hnil. simpl in Hnil.
    rewrite Hnil in Hlen. simpl in Hlen. lia.
  - intros skip res Hres Hmore IH Hskip. simpl.
    pose proof (page_length _ _ _ Hres) as Hlen. simpl in Hlen.
    rewrite length_drop in Hlen.
    apply getCommitsPaginated_inv in Hres as (_ & _ & _ & Hm). simpl in Hm.
    unfold lastPage in Hmore. apply orb_false_elim in Hmore as [Hhas _].
    rewrite Hm in Hhas. apply negb_false_iff, bool_decide_eq_true in Hhas.
    rewrite length_drop in Hhas.
    constructor; [|apply IH; lia].
    intros Hnil. simpl in Hnil. rewrite Hnil in Hlen. simpl in Hlen. lia.
Qed.

(** X3. The chunks of a run: all but the last hold exactly [chunkSize]
    commits, the last one, which exists exactly when the run returns
    normally, holds at most [chunkSize]; and when the history is not empty
    and the chunk size is positive no chunk is empty, so a history whose
    length is a multiple of the chunk size is not followed by an empty
    chunk. *)
Theorem streamCommits_chunk_shape r (chunkSize : option nat) (firstParent : option bool) :
  let cs := default 500 chunkSize in
  let s := streamCommits r chunkSize firstParent in
  (∃ full tail,
     yielded s = full ++ tail ∧
     Forall (λ c, length (chunk_commits c) = cs) full ∧
     match thrown s with
     | None => ∃ last, tail = [last] ∧ length (chunk_commits last) ≤ cs
     | Some _ => tail = []
     end) ∧
  (0 < cs → history r (default false firstParent) ≠ [] →
   Forall (λ c, chunk_commits c ≠ []) (yielded s)).
Proof.
  intros cs s. subst cs s. unfold streamCommits. split.
  - apply streamCommits_from_shape.
  - intros Hpos Hne. apply streamCommits_from_nonempty; [exact Hpos|].
    destruct (history r (default false firstParent)); [contradiction | simpl; lia].
Qed.

(** Four commits in chunks of two: two full chunks, no empty third one. *)
Example streamCommits_exact_multiple :
  map (λ c, length (chunk_commits c))
      (yielded (streamCommits (Samples.linearRepo 4) (Some 2) None)) = [2; 2].
Proof. reflexivity. Qed.

End Chunking.

(** ** Reading the fields of a log entry *)

Section Splitting.

Lemma split_not_nil sep s : Js.split sep s ≠ [].
Proof.
  destruct s as [|a s]; simpl; [discriminate|].
  destruct (Ascii.eqb a sep); [discriminate|].
  destruct (Js.split sep s); discriminate.
Qed.

(** No piece contains the separator. *)
Lemma split_pieces sep s :
  Forall (λ p, sep ∉ list_ascii_of_string p) (Js.split sep s).
Proof.
  induction s as [|a s IH]; simpl.
  - repeat constructor. simpl. apply not_elem_of_nil.
  - destruct (Ascii.eqb_spec a sep) as [->|Hne].
    + constructor; [simpl; apply not_elem_of_nil | exact IH].
    + destruct (Js.split sep s) as [|piece pieces]; [repeat constructor|].
      * simpl. intros [?|[]%not_elem_of_nil]%elem_of_cons. congruence.
      * inversion IH; subst. constructor; [|assumption].
        simpl. intros [?|?]%elem_of_cons; [congruence | contradiction].
Qed.

(** A string without the separator is its own single piece. *)
Lemma split_whole sep s : sep ∉ list_ascii_of_string s → Js.split sep s = [s].
Proof.
  induction s as [|a s IH]; simpl; [reflexivity|]. intros Hnot.
  destruct (Ascii.eqb_spec a sep) as [->|Hne].
  - exfalso. apply Hnot. left.
  - rewrite IH; [reflexivity|]. intros Hin. apply Hnot. right. exact Hin.
Qed.

(** Splitting distributes over a separator between two strings. *)
Lemma split_app sep s1 s2 :
  Js.split sep (s1 +:+ String sep s2) = Js.split sep s1 ++ Js.split sep s2.
Proof.
  induction s1 as [|a s1 IH]; simpl.
  - rewrite Ascii.eqb_refl. reflexivity.
  - change (String.append s1 (String sep s2)) with (s1 +:+ String sep s2). rewrite IH.
    pose proof (split_not_nil sep s1) as Hne.
    destruct (Ascii.eqb a sep); [reflexivity|].
    destruct (Js.split sep s1); [contradiction | reflexivity].
Qed.

(** Splitting undoes joining, for pieces that do not contain the separator. *)
Lemma split_concat sep (ps : list string) :
  ps ≠ [] →
  Forall (λ p, sep ∉ list_ascii_of_string p) ps →
  Js.split sep (String.concat (String sep EmptyString) ps) = ps.
Proof.
  induction ps as [|p ps IH]; [contradiction|]. intros _ Hps.
  inversion Hps as [|? ? Hp Hrest]; subst.
  destruct ps as [|q ps].
  - simpl. apply split_whole, Hp.
  - change (String.concat (String sep EmptyString) (p :: q :: ps))
      with (p +:+ String sep (String.concat (String sep EmptyString) (q :: ps))).
    rewrite split_app, (split_whole sep p Hp), IH by (discriminate || assumption).
    reflexivity.
Qed.

End Splitting.

Section LogFields.
Import GitService.

Lemma truthy_spec s : Is_true (Js.truthy s) ↔ s ≠ "".
Proof.
  unfold Js.truthy. destruct (String.eqb_spec s ""); simpl; split; try tauto.
Qed.

Lemma filter_truthy_id (ps : list string) :
  Forall (λ p, p ≠ "") ps → filter (λ p, Is_true (Js.truthy p)) ps = ps.
Proof.
  induction 1 as [|p ps Hp _ IH]; [reflexivity|].
  rewrite filter_cons, decide_True by (apply truthy_spec, Hp). rewrite IH. reflexivity.
Qed.

(** X4. The parents of a commit read from a log entry are never empty
    strings and never contain a space, whatever the raw field holds. *)
Theorem toCommit_parents_wellformed (e : LogEntry) :
  Forall (λ p, p ≠ "" ∧ " "%char ∉ list_ascii_of_string p) (parents (toCommit e)).
Proof.
  unfold toCommit; simpl. destruct (Js.truthy (entry_parents e)); [|constructor].
  apply Forall_forall. intros p [Hp Hin]%list_elem_of_filter.
  split; [apply truthy_spec, Hp|].
  pose proof (split_pieces " " (entry_parents e)) as Hpieces.
  rewrite Forall_forall in Hpieces. apply Hpieces, Hin.
Qed.

(** X5. Reading undoes writing: when the raw field of the entry is the list
    [ps] of hashes joined by single spaces, the parents of the commit are
    [ps], in the same order (and no parent at all for the empty field). *)
Theorem toCommit_parents_roundtrip (e : LogEntry) (ps : list string) :
  Forall (λ p, p ≠ "" ∧ " "%char ∉ list_ascii_of_string p) ps →
  entry_parents e = String.concat " " ps →
  parents (toCommit e) = ps.
Proof.
  intros Hps Hraw. unfold toCommit; simpl. rewrite Hraw.
  destruct ps as [|p ps]; [reflexivity|].
  assert (Js.truthy (String.concat " " (p :: ps)) = true) as ->.
  { inversion Hps as [|? ? [Hp _] _]; subst.
    destruct p as [|a p]; [contradiction|]. destruct ps; reflexivity. }
  rewrite split_concat; [| discriminate | eapply Forall_impl; [exact Hps | simpl; tauto]].
  apply filter_truthy_id. eapply Forall_impl; [exact Hps | simpl; tauto].
Qed.

Lemma toCommit_parents_roundtrip_witness :
  parents (toCommit (Samples.entry "m" "a b")) = ["a"; "b"].
Proof.
  apply (toCommit_parents_roundtrip (Samples.entry "m" "a b") ["a"; "b"]); [|reflexivity].
  repeat constructor; try discriminate;
    simpl; intros [?|[]%not_elem_of_nil]%elem_of_cons; discriminate.
Defined.

(** X6. The name of a repository derived from its path is never empty and
    never contains a slash; it is the last component of the path, with or
    without a trailing slash. *)
Theorem repoName_last_component :
  (∀ path, repoName path ≠ "" ∧ "/"%char ∉ list_ascii_of_string (repoName path)) ∧
  (∀ dir name,
     name ≠ "" → "/"%char ∉ list_ascii_of_string name →
     repoName (dir +:+ String "/" name) = name ∧
     repoName ((dir +:+ String "/" name) +:+ String "/" "") = name).
Proof.
  split.
  - intros path. unfold repoName, Js.last_opt.
    destruct (last _) as [name|] eqn:Hlast.
    + apply last_Some_elem_of, list_elem_of_filter in Hlast as [Hname Hin].
      split; [apply truthy_spec, Hname|].
      pose proof (split_pieces "/" path) as Hpieces.
      rewrite Forall_forall in Hpieces. apply Hpieces, Hin.
    + split; [discriminate|]. simpl.
      intros Hin. repeat (apply elem_of_cons in Hin as [?|Hin]; [discriminate|]).
      apply not_elem_of_nil in Hin. exact Hin.
  - intros dir name Hname Hslash. unfold repoName, Js.last_opt.
    assert (filter (λ p, Is_true (Js.truthy p)) [name] = [name]) as Hkeep
      by (apply filter_truthy_id; repeat constructor; exact Hname).
    rewrite !split_app, (split_whole "/" name Hslash). simpl Js.split.
    rewrite !filter_app, Hkeep.
    rewrite (filter_cons _ ""), decide_False, filter_nil, app_nil_r by (simpl; tauto).
    rewrite last_snoc. auto.
Qed.

End LogFields.

Section Refs.
Import GitService.

Lemma rev_app_chars s1 s2 :
  list_ascii_of_string (String.rev_app s1 s2) =
    List.rev (list_ascii_of_string s1) ++ list_ascii_of_string s2.
Proof.
  revert s2. induction s1 as [|a s1 IH]; intros s2; simpl; [reflexivity|].
  rewrite IH. simpl. rewrite <- app_assoc. reflexivity.
Qed.

Lemma chars_app s1 s2 :
  list_ascii_of_string (s1 +:+ s2) = list_ascii_of_string s1 ++ list_ascii_of_string s2.
Proof. induction s1 as [|a s1 IH]; simpl; [reflexivity|]. f_equal. exact IH. Qed.

Lemma rev_involutive s : String.rev (String.rev s) = s.
Proof.
  rewrite <- (string_of_list_ascii_of_string (String.rev (String.rev s))).
  unfold String.rev. rewrite !rev_app_chars. simpl. rewrite !app_nil_r, List.rev_involutive.
  apply string_of_list_ascii_of_string.
Qed.

(** What is left of a string after [trimStart] does not start with white space. *)
Lemma trimStart_head s a t : Js.trimStart s = String a t → Ascii.is_space a = false.
Proof.
  induction s as [|b s IH]; simpl; [discriminate|].
  destruct (Ascii.is_space b) eqn:Hb; [exact IH|]. intros [= <- _]. exact Hb.
Qed.

(** A trimmed string does not end with white space. *)
Lemma trim_last s t a : Js.trim s = t +:+ String a "" → Ascii.is_space a = false.
Proof.
  unfold Js.trim. intros Htrim.
  apply (f_equal String.rev) in Htrim. rewrite rev_involutive in Htrim.
  assert (String.rev (t +:+ String a "") = String a (String.rev t)) as Hrev.
  { rewrite <- (string_of_list_ascii_of_string (String.rev _)).
    rewrite <- (string_of_list_ascii_of_string (String a (String.rev t))).
    f_equal. unfold String.rev. simpl. rewrite !rev_app_chars, !app_nil_r.
    rewrite chars_app. simpl. rewrite rev_app_distr. reflexivity. }
  rewrite Hrev in Htrim. eapply trimStart_head, Htrim.
Qed.

(** A string that starts with [pre] is [pre] followed by what [dropPrefix] keeps. *)
Lemma startsWith_dropPrefix s pre :
  Js.startsWith s pre = true → s = pre +:+ Js.dropPrefix pre s.
Proof.
  unfold Js.startsWith, Js.dropPrefix. revert s.
  induction pre as [|a pre IH]; intros s; simpl.
  - intros _. rewrite Nat.sub_0_r. change ("" +:+ ?x) with x.
    induction s as [|b s IHs]; simpl; [reflexivity|]. f_equal. exact IHs.
  - destruct s as [|b s]; [discriminate|]. simpl.
    destruct (ascii_dec a b) as [->|]; [|discriminate].
    intros Hpre. change (String b pre +:+ ?x) with (String b (pre +:+ x)).
    f_equal. exact (IH s Hpre).
Qed.

Lemma trimStart_chars s c :
  c ∈ list_ascii_of_string (Js.trimStart s) → c ∈ list_ascii_of_string s.
Proof.
  induction s as [|b s IH]; simpl; [tauto|].
  destruct (Ascii.is_space b); [intros ?%IH; right; assumption | tauto].
Qed.

Lemma rev_chars s c : c ∈ list_ascii_of_string (String.rev s) ↔ c ∈ list_ascii_of_string s.
Proof.
  unfold String.rev. rewrite rev_app_chars. simpl. rewrite app_nil_r.
  rewrite !list_elem_of_In. symmetry. apply in_rev.
Qed.

(** Trimming adds no character. *)
Lemma trim_chars s c : c ∈ list_ascii_of_string (Js.trim s) → c ∈ list_ascii_of_string s.
Proof.
  unfold Js.trim. intros Hc.
  apply rev_chars, trimStart_chars, rev_chars, trimStart_chars in Hc. exact Hc.
Qed.

(** What one trimmed piece of the field gives. *)
Lemma parseRef_wellformed part :
  (∀ t a, part = t +:+ String a "" → Ascii.is_space a = false) →
  Forall (λ ref,
            ref_name ref ≠ "" ∧
            (∀ c, c ∈ list_ascii_of_string (ref_name ref) → c ∈ list_ascii_of_string part) ∧
            (isHead ref = true → ref_type ref = branch) ∧
            (ref_type ref = remote → Js.startsWith (ref_name ref) "origin/" = true))
         (parseRef part).
Proof.
  intros Hlast. unfold parseRef.
  assert (∀ pre sp, Js.startsWith part (pre +:+ String sp "") = true →
                    Ascii.is_space sp = true →
                    Js.dropPrefix (pre +:+ String sp "") part ≠ "" ∧
                    ∀ c, c ∈ list_ascii_of_string (Js.dropPrefix (pre +:+ String sp "") part) →
                         c ∈ list_ascii_of_string part) as Hdrop.
  { intros pre sp Hpre Hsp. apply startsWith_dropPrefix in Hpre.
    set (rest := Js.dropPrefix _ part) in *. split.
    - intros Hrest. rewrite Hrest in Hpre.
      assert (part = pre +:+ String sp "") as Hpart.
      { rewrite Hpre. rewrite <- (string_of_list_ascii_of_string (_ +:+ "")).
        rewrite chars_app, app_nil_r. apply string_of_list_ascii_of_string. }
      rewrite (Hlast _ _ Hpart) in Hsp. discriminate.
    - intros c Hc. rewrite Hpre, chars_app. apply elem_of_app. right. exact Hc. }
  destruct (Js.startsWith part "HEAD -> ") eqn:Hhead.
  { destruct (Hdrop "HEAD ->" " "%char Hhead eq_refl). repeat constructor; simpl; auto; discriminate. }
  destruct (String.eqb part "HEAD"); [constructor|].
  destruct (Js.startsWith part "tag: ") eqn:Htag.
  { destruct (Hdrop "tag:" " "%char Htag eq_refl). repeat constructor; simpl; auto; discriminate. }
  destruct (Js.startsWith part "origin/") eqn:Horigin.
  { repeat constructor; simpl; auto; try discriminate.
    intros ->. discriminate Horigin. }
  destruct (Js.truthy part) eqn:Htruthy; [|constructor].
  repeat constructor; simpl; auto; try discriminate.
  apply truthy_spec. rewrite Htruthy. exact I.
Qed.

(** X7. Every ref read from the decoration field of a log entry has a name
    that is not empty and contains no comma; only a branch can be the
    head, and a ref is a remote only if its name starts with "origin/". A
    field that is empty or blank gives no ref. *)
Theorem parseRefs_wellformed (refsString : string) :
  Forall (λ ref,
            ref_name ref ≠ "" ∧
            (","%char ∉ list_ascii_of_string (ref_name ref)) ∧
            (isHead ref = true → ref_type ref = branch) ∧
            (ref_type ref = remote → Js.startsWith (ref_name ref) "origin/" = true))
         (parseRefs refsString) ∧
  (Js.trim refsString = "" → parseRefs refsString = []).
Proof.
  unfold parseRefs. split.
  - destruct (orb _ _); [constructor|].
    apply Forall_forall. intros ref Href.
    apply list_elem_of_In, in_flat_map in Href as (part & Hpart & Href).
    apply in_map_iff in Hpart as (piece & <- & Hpiece).
    pose proof (parseRef_wellformed (Js.trim piece) (trim_last piece)) as Hwf.
    rewrite Forall_forall in Hwf.
    destruct (Hwf ref) as (Hname & Hchars & Hhead & Hremote); [apply list_elem_of_In, Href|].
    repeat split; try assumption.
    intros Hcomma. apply Hchars, trim_chars in Hcomma.
    pose proof (split_pieces "," refsString) as Hpieces.
    rewrite Forall_forall in Hpieces.
    apply (Hpieces piece); [apply list_elem_of_In, Hpiece | exact Hcomma].
  - intros ->. rewrite orb_true_r. reflexivity.
Qed.

(** A decoration as git prints it. *)
Example parseRefs_decoration :
  parseRefs "HEAD -> main, tag: v1.0, origin/main, feature/x" =
    [ {| ref_name := "main"; ref_type := branch; isHead := true |};
      {| ref_name := "v1.0"; ref_type := tag; isHead := false |};
      {| ref_name := "origin/main"; ref_type := remote; isHead := false |};
      {| ref_name := "feature/x"; ref_type := branch; isHead := false |} ].
Proof. reflexivity. Qed.

End Refs.

Section Boundaries.
Import GitService.

(** X8. A fetch that skips at least as many entries as the log enumeration
    holds returns normally with no commit and [hasMore = false], whatever
    [maxCount] is. *)
Theorem getCommitsPaginated_past_end r options :
  let maxCount := default 500 (opt_maxCount options) in
  let skip := default 0 (opt_skip options) in
  let firstParent := default false (opt_firstParent options) in
  length (history r firstParent) ≤ skip →
  log_error r firstParent (maxCount + 1) skip = None →
  getCommitsPaginated r options =
    Ok {| commits := []; total := getTotalCommitCount r; hasMore := false |}.
Proof.
  intros maxCount skip firstParent Hskip Hlog.
  rewrite (getCommitsPaginated_Ok r options Hlog).
  fold skip firstParent. rewrite drop_ge by exact Hskip.
  rewrite take_nil. reflexivity.
Qed.

Lemma getCommitsPaginated_past_end_witness :
  getCommitsPaginated Samples.mergeRepo (Samples.page 10 3 false) =
    Ok {| commits := []; total := 3; hasMore := false |}.
Proof.
  apply (getCommitsPaginated_past_end Samples.mergeRepo (Samples.page 10 3 false));
    [simpl; lia | reflexivity].
Defined.

Lemma delivered_mono (chunks : list Chunk) (n m : nat) :
  n ≤ m →
  length (concat (map chunk_commits (take n chunks))) ≤
  length (concat (map chunk_commits (take m chunks))).
Proof.
  revert n m. induction chunks as [|c chunks IH]; intros n m Hnm.
  - rewrite !take_nil. reflexivity.
  - destruct n as [|n]; [simpl; lia|]. destruct m as [|m]; [lia|].
    simpl. rewrite !length_app. specialize (IH n m ltac:(lia)). lia.
Qed.

(** The count behind the progress of a chunk is the number of commits
    delivered up to and including that chunk. *)
Lemma streamCommits_from_delivered r chunkSize firstParent total skip :
  skip ≤ length (history r firstParent) →
  let s := streamCommits_from r chunkSize firstParent total skip in
  (∀ i c, yielded s !! i = Some c →
     progress c =
       progressOf (skip + length (concat (map chunk_commits (take (S i) (yielded s))))) total) ∧
  skip + length (concat (map chunk_commits (yielded s))) ≤ length (history r firstParent) ∧
  (0 < chunkSize → thrown s = None →
   skip + length (concat (map chunk_commits (yielded s))) = length (history r firstParent)).
Proof.
  revert skip.
  apply (streamCommits_from_ind
           (λ skip s, skip ≤ length (history r firstParent) →
              (∀ i c, yielded s !! i = Some c →
                 progress c =
                   progressOf
                     (skip + length (concat (map chunk_commits (take (S i) (yielded s)))))
                     total) ∧
              skip + length (concat (map chunk_commits (yielded s))) ≤
                length (history r firstParent) ∧
              (0 < chunkSize → thrown s = None →
               skip + length (concat (map chunk_commits (yielded s))) =
                 length (history r firstParent)))).
  - intros skip e _ Hskip. simpl. split; [intros i c Hc; discriminate Hc|].
    split; [lia | discriminate].
  - intros skip res Hres Hlast Hskip.
    pose proof (page_length _ _ _ Hres) as Hlen. simpl in Hlen. rewrite length_drop in Hlen.
    apply getCommitsPaginated_inv in Hres as (_ & _ & _ & Hm). simpl in Hm.
    rewrite length_drop in Hm. simpl. rewrite app_nil_r.
    split; [|split].
    + intros [|i] c Hc; [|destruct i; discriminate Hc].
      injection Hc as <-. simpl. rewrite app_nil_r. reflexivity.
    + lia.
    + intros Hpos _. unfold lastPage in Hlast. rewrite Hm in Hlast.
      apply orb_true_iff in Hlast as [Hlast | Hempty].
      * apply negb_true_iff, bool_decide_eq_false in Hlast. lia.
      * apply bool_decide_eq_true in Hempty. lia.
  - intros skip res Hres Hmore IH Hskip.
    pose proof (page_length _ _ _ Hres) as Hlen. simpl in Hlen. rewrite length_drop in Hlen.
    apply getCommitsPaginated_inv in Hres as (_ & _ & _ & Hm). simpl in Hm.
    rewrite length_drop in Hm.
    unfold lastPage in Hmore. apply orb_false_elim in Hmore as [Hhas _].
    rewrite Hm in Hhas. apply negb_false_iff, bool_decide_eq_true in Hhas.
    destruct IH as (Hprogress & Hbound & Hfinal); [lia|].
    set (rest := streamCommits_from r chunkSize firstParent total (skip + chunkSize)) in *.
    assert (length (commits res) = chunkSize) as Hfull by lia.
    simpl. rewrite length_app. split; [|split].
    + intros [|i] c Hc.
      * injection Hc as <-. simpl. rewrite app_nil_r. reflexivity.
      * simpl in Hc. rewrite (Hprogress i c Hc). f_equal.
        change (take (S (S i)) (chunkOf res skip total :: yielded rest))
          with (chunkOf res skip total :: take (S i) (yielded rest)).
        simpl. rewrite length_app. lia.
    + lia.
    + intros Hpos Hret. specialize (Hfinal Hpos Hret). lia.
Qed.

(** X9. The progress of every chunk of a run is the value of the one
    function [n => Math.min(100, Math.round(n / total * 100))] at the
    number of commits delivered up to and including that chunk, the sum of
    the sizes of the chunks so far. These numbers never decrease, never
    exceed the length of the log enumeration, and the one of the last
    chunk is that length when the chunk size is positive and the run
    returns normally. *)
Theorem streamCommits_progress_counts r (chunkSize : option nat) (firstParent : option bool) :
  let s := streamCommits r chunkSize firstParent in
  let h := history r (default false firstParent) in
  let delivered (i : nat) :=
    length (concat (map chunk_commits (take (S i) (yielded s)))) in
  (∀ i c, yielded s !! i = Some c →
     progress c = progressOf (delivered i) (getTotalCommitCount r) ∧
     delivered i ≤ length h) ∧
  (∀ i j, i ≤ j → delivered i ≤ delivered j) ∧
  (0 < default 500 chunkSize → thrown s = None →
   delivered (length (yielded s) - 1) = length h).
Proof.
  intros s h delivered. subst s h delivered. unfold streamCommits.
  destruct (streamCommits_from_delivered r (default 500 chunkSize) (default false firstParent)
              (getTotalCommitCount r) 0 ltac:(lia))
    as (Hprogress & Hbound & Hfinal).
  set (s := streamCommits_from r (default 500 chunkSize) (default false firstParent)
              (getTotalCommitCount r) 0) in *.
  assert (∀ n, length (concat (map chunk_commits (take n (yielded s)))) ≤
               length (concat (map chunk_commits (yielded s)))) as Hprefix.
  { intros n. rewrite <- (firstn_all (yielded s)) at 2.
    destruct (decide (n ≤ length (yielded s))) as [Hn|Hn].
    - apply delivered_mono, Hn.
    - rewrite (take_ge (yielded s) n) by lia. rewrite firstn_all. reflexivity. }
  split; [|split].
  - intros i c Hc. split; [exact (Hprogress i c Hc)|].
    specialize (Hprefix (S i)). simpl in Hbound. lia.
  - intros i j Hij. apply delivered_mono. lia.
  - intros Hpos Hret. specialize (Hfinal Hpos Hret). simpl in Hfinal.
    rewrite take_ge by lia. exact Hfinal.
Qed.

(** On the scenario of the specification the numbers are 1000, 2000, 2437. *)
Example streamCommits_delivered_2437 :
  let chunks := yielded (streamCommits (Samples.linearRepo 2437) (Some 1000) None) in
  map (λ i, length (concat (map chunk_commits (take (S i) chunks)))) [0; 1; 2] =
    [1000; 2000; 2437] ∧
  map progress chunks = map (λ n, progressOf n 2437) [1000; 2000; 2437].
Proof. vm_compute. split; reflexivity. Qed.

End Boundaries.

(** ** Tags *)

Section Tags.
Import TagParsing.

Let spaceless (s : string) : Prop :=
  ∀ c, c ∈ list_ascii_of_string s → Ascii.is_space c = false.

Lemma printable_not_space c :
  (32 <? nat_of_ascii c) && (nat_of_ascii c <? 127) = true → Ascii.is_space c = false.
Proof.
  destruct c as [[] [] [] [] [] [] [] []]; vm_compute; intros Hc;
    first [reflexivity | discriminate Hc].
Qed.

Lemma solid_spaceless s : solid s = true → spaceless s.
Proof.
  unfold solid. rewrite forallb_forall. intros Hs c Hc%list_elem_of_In.
  apply printable_not_space, Hs, Hc.
Qed.

Lemma solid_split sep s : Ascii.is_space sep = true → spaceless s → Js.split sep s = [s].
Proof.
  intros Hsep Hs. apply split_whole. intros Hin. apply Hs in Hin. congruence.
Qed.

Lemma dropPrefix_app pre s : Js.dropPrefix pre (pre +:+ s) = s.
Proof.
  unfold Js.dropPrefix. induction pre as [|a pre IH]; simpl.
  - rewrite Nat.sub_0_r. induction s as [|b s IHs]; simpl; [reflexivity|].
    f_equal. exact IHs.
  - exact IH.
Qed.

Lemma startsWith_app pre s : Js.startsWith (pre +:+ s) pre = true.
Proof.
  unfold Js.startsWith. induction pre as [|a pre IH]; simpl.
  - change ("" +:+ s) with s. destruct s; reflexivity.
  - destruct (ascii_dec a a); [exact IH | contradiction].
Qed.

Lemma replace_first_unfold pre s :
  replace_first pre s =
    if Js.startsWith s pre then Js.dropPrefix pre s
    else match s with
         | String a rest => String a (replace_first pre rest)
         | EmptyString => EmptyString
         end.
Proof. destruct s; reflexivity. Qed.

Lemma replace_first_prefix pre s : replace_first pre (pre +:+ s) = s.
Proof. rewrite replace_first_unfold, startsWith_app. apply dropPrefix_app. Qed.

Lemma parseLine_line t :
  spaceless (tag_commit t) → spaceless (tag_name t) → parseLine (line t) = Ok t.
Proof.
  intros Hcommit Hname. unfold parseLine, line.
  change (tag_commit t +:+ " refs/tags/" +:+ tag_name t)
    with (tag_commit t +:+ String " " ("refs/tags/" +:+ tag_name t)).
  rewrite split_app, (solid_split " " _ eq_refl Hcommit).
  rewrite (solid_split " " ("refs/tags/" +:+ tag_name t) eq_refl).
  - remember ("refs/tags/" +:+ tag_name t) as ref eqn:Href. simpl. subst ref.
    rewrite replace_first_prefix. destruct t; reflexivity.
  - intros c. rewrite chars_app. intros [Hc|Hc]%elem_of_app; [|exact (Hname c Hc)].
    simpl in Hc. repeat (apply elem_of_cons in Hc as [->|Hc]; [reflexivity|]).
    inversion Hc.
Qed.

Lemma parseLines_lines tags :
  Forall (λ t, spaceless (tag_commit t) ∧ spaceless (tag_name t)) tags →
  parseLines (map line tags) = Ok tags.
Proof.
  induction 1 as [|t tags [Hc Hn] _ IH]; simpl; [reflexivity|].
  rewrite (parseLine_line t Hc Hn). simpl. rewrite IH. reflexivity.
Qed.

Lemma string_eq_chars s1 s2 : list_ascii_of_string s1 = list_ascii_of_string s2 → s1 = s2.
Proof.
  intros Heq. rewrite <- (string_of_list_ascii_of_string s1), Heq.
  apply string_of_list_ascii_of_string.
Qed.

Lemma rev_string_chars s : list_ascii_of_string (String.rev s) = List.rev (list_ascii_of_string s).
Proof. unfold String.rev. rewrite rev_app_chars. simpl. apply app_nil_r. Qed.

Lemma trimStart_id s :
  (∀ a, head (list_ascii_of_string s) = Some a → Ascii.is_space a = false) →
  Js.trimStart s = s.
Proof. destruct s as [|a s]; simpl; [reflexivity|]. intros Hhead. rewrite Hhead; reflexivity. Qed.

(** Trimming removes the line feed that ends the output, and nothing else
    when the output neither starts nor ends with white space otherwise. *)
Lemma trim_line_feed s :
  (∀ a, head (list_ascii_of_string s) = Some a → Ascii.is_space a = false) →
  (∀ a, last (list_ascii_of_string s) = Some a → Ascii.is_space a = false) →
  Js.trim (s +:+ String "010" "") = s.
Proof.
  intros Hhead Hlast. unfold Js.trim.
  assert (Js.trimStart (s +:+ String "010" "") =
          if decide (s = "") then "" else s +:+ String "010" "") as ->.
  { destruct s as [|a s]; [reflexivity|]. rewrite decide_False by discriminate.
    change (String a s +:+ String "010" "") with (String a (s +:+ String "010" "")).
    simpl. rewrite (Hhead a eq_refl). reflexivity. }
  destruct (decide (s = "")) as [->|Hne]; [reflexivity|].
  assert (String.rev (s +:+ String "010" "") = String "010" (String.rev s)) as ->.
  { apply string_eq_chars. simpl. rewrite !rev_string_chars, chars_app. simpl.
    rewrite rev_app_distr. reflexivity. }
  simpl. rewrite trimStart_id; [apply rev_involutive|].
  intros a Ha. apply Hlast. rewrite rev_string_chars in Ha.
  rewrite <- (List.rev_involutive (list_ascii_of_string s)).
  destruct (List.rev (list_ascii_of_string s)) as [|b l]; [discriminate Ha|].
  simpl in Ha. injection Ha as ->. simpl. apply last_snoc.
Qed.

Lemma solid_ref name : spaceless name → spaceless ("refs/tags/" +:+ name).
Proof.
  intros Hname c. rewrite chars_app. intros [Hc|Hc]%elem_of_app; [|exact (Hname c Hc)].
  simpl in Hc. repeat (apply elem_of_cons in Hc as [->|Hc]; [reflexivity|]).
  inversion Hc.
Qed.

Lemma line_chars t :
  list_ascii_of_string (line t) =
    list_ascii_of_string (tag_commit t)
    ++ " "%char :: list_ascii_of_string ("refs/tags/" +:+ tag_name t).
Proof.
  unfold line.
  change (tag_commit t +:+ " refs/tags/" +:+ tag_name t)
    with (tag_commit t +:+ String " " ("refs/tags/" +:+ tag_name t)).
  rewrite chars_app. reflexivity.
Qed.

Lemma concat_cons sep p q (ps : list string) :
  String.concat sep (p :: q :: ps) = p +:+ sep +:+ String.concat sep (q :: ps).
Proof. reflexivity. Qed.

(** The output starts with the first commit id and ends with the last ref. *)
Lemma show_ref_ends t (tags : list Tag) :
  let s := String.concat (String "010" "") (map line (t :: tags)) in
  (∃ u, list_ascii_of_string s = list_ascii_of_string (tag_commit t) ++ " "%char :: u) ∧
  (∃ v t', t' ∈ t :: tags ∧
           list_ascii_of_string s = v ++ list_ascii_of_string ("refs/tags/" +:+ tag_name t')).
Proof.
  revert t. induction tags as [|t2 tags IH]; intros t s; subst s.
  - change (String.concat (String "010" "") (map line [t])) with (line t).
    rewrite line_chars. split; [eauto|].
    exists (list_ascii_of_string (tag_commit t) ++ [" "%char]), t.
    split; [left|]. rewrite <- app_assoc. reflexivity.
  - destruct (IH t2) as [_ (v & t' & Hin & Hv)].
    change (String.concat (String "010" "") (map line (t :: t2 :: tags)))
      with (line t +:+ String "010" (String.concat (String "010" "") (map line (t2 :: tags)))).
    rewrite chars_app, line_chars.
    change (list_ascii_of_string (String "010" ?x)) with ("010"%char :: list_ascii_of_string x).
    rewrite Hv. split.
    + rewrite <- app_assoc. simpl. eauto.
    + exists ((list_ascii_of_string (tag_commit t)
               ++ " "%char :: list_ascii_of_string ("refs/tags/" +:+ tag_name t))
              ++ "010"%char :: v), t'.
      split; [right; exact Hin|]. rewrite <- !app_assoc. reflexivity.
Qed.

(** X28. Reading undoes writing for the tags: when git prints one line
    [<id> refs/tags/<name>] per tag, ids and names made of printable
    characters other than the space, [getTags] returns these tags, ids and names unchanged, in the order of
    the lines. The name may itself contain [refs/tags/]: only the leading
    occurrence is removed. *)
Theorem getTags_roundtrip (tags : list Tag) :
  Forall (λ t, tag_commit t ≠ "" ∧ solid (tag_commit t) = true ∧ solid (tag_name t) = true)
         tags →
  getTags (Ok (String.concat (String "010" "") (map line tags) +:+ String "010" "")) = tags.
Proof.
  intros Hsolid.
  assert (Forall (λ t, tag_commit t ≠ "" ∧ spaceless (tag_commit t) ∧ spaceless (tag_name t))
                 tags) as Htags.
  { eapply Forall_impl; [exact Hsolid|]. intros t (? & ?%solid_spaceless & ?%solid_spaceless).
    auto. }
  clear Hsolid. destruct tags as [|t tags]; [reflexivity|].
  set (s := String.concat (String "010" "") (map line (t :: tags))).
  unfold getTags. simpl mbind.
  destruct (show_ref_ends t tags) as [(u & Hu) (v & t' & Hin & Hv)]. fold s in Hu, Hv.
  rewrite Forall_forall in Htags.
  rewrite trim_line_feed.
  - subst s. rewrite split_concat.
    + rewrite filter_truthy_id.
      * rewrite parseLines_lines; [reflexivity|].
        apply Forall_forall. intros x Hx. destruct (Htags x Hx) as (_ & ? & ?). auto.
      * apply Forall_forall. intros l (x & <- & Hx)%list_elem_of_In%in_map_iff Hempty.
        apply (f_equal list_ascii_of_string) in Hempty. rewrite line_chars in Hempty.
        destruct (list_ascii_of_string (tag_commit x)); discriminate Hempty.
    + discriminate.
    + apply Forall_forall. intros l (x & <- & Hx)%list_elem_of_In%in_map_iff.
      apply list_elem_of_In in Hx. destruct (Htags x Hx) as (_ & Hc & Hn).
      rewrite line_chars. intros [Hin'|Hin']%elem_of_app.
      * apply Hc in Hin'. discriminate Hin'.
      * apply elem_of_cons in Hin' as [Hin'|Hin']; [discriminate Hin'|].
        apply (solid_ref _ Hn) in Hin'. discriminate Hin'.
  - intros a. rewrite Hu. destruct (Htags t ltac:(left)) as (Hne & Hc & _).
    destruct (tag_commit t) as [|b c]; [contradiction|]. simpl. intros [= <-].
    apply Hc. left.
  - intros a. rewrite Hv, last_app.
    destruct (Htags t' Hin) as (_ & _ & Hn). pose proof (solid_ref _ Hn) as Href.
    destruct (last (list_ascii_of_string ("refs/tags/" +:+ tag_name t'))) as [b|] eqn:Hb.
    + intros [= <-]. apply Href. apply last_Some in Hb as [l' ->].
      apply elem_of_app. right. left.
    + apply last_None in Hb. rewrite chars_app in Hb. discriminate Hb.
Qed.

Lemma getTags_roundtrip_witness :
  getTags (Ok (String.concat (String "010" "")
                 (map line [ {| tag_name := "v1.0"; tag_commit := "8f3a" |};
                             {| tag_name := "release/2"; tag_commit := "c41d" |} ])
               +:+ String "010" "")) =
    [ {| tag_name := "v1.0"; tag_commit := "8f3a" |};
      {| tag_name := "release/2"; tag_commit := "c41d" |} ].
Proof.
  apply getTags_roundtrip. repeat constructor; discriminate.
Defined.

End Tags.

(** ** The JSON routes *)

Section JsonRoutes.
Import GitService FullLoad.

Lemma maxCountOf_pos q : 0 < maxCountOf q.
Proof. unfold maxCountOf. destruct (cq_maxCount q) as [[|n]|]; lia. Qed.


(** X20. What the other handlers refuse. The metadata route answers 500
    only with the message of the failed [git branch], the load route only
    with the message of the failed [git log] or [git branch], the commits
    route only with the message of the failed [git log]; they answer 400
    only for a path that is not a repository. *)
Theorem json_routes_refusals (x : GitCommands) :
  let r := handle x in
  (∀ status e, metadata x = Refused status e →
     status = 400 ∧ validateRepository r = false ∨
     status = 500 ∧ git_branch r = Throw e) ∧
  (∀ status e, load x = Refused status e →
     status = 400 ∧ validateRepository r = false ∨
     status = 500 ∧ (log_full x = Throw e ∨ git_branch r = Throw e)) ∧
  (∀ q status e, commitsPage x q = Refused status e →
     status = 400 ∧ validateRepository r = false ∨
     status = 500 ∧ log_error r (firstParentOf q) (maxCountOf q + 1) (skipOf q) = Some e).
Proof.
  intros r. split; [|split].
  - intros status e. unfold metadata, getRepositoryMetadata, getBranches. fold r.
    destruct (validateRepository r); simpl.
    + destruct (git_branch r) as [bs|e']; simpl; [discriminate|].
      intros [= <- <-]. right. split; reflexivity.
    + intros [= <- <-]. left. split; reflexivity.
  - intros status e. unfold load, getRepository, getCommits, getBranches. fold r.
    destruct (validateRepository r); simpl.
    + destruct (log_full x) as [log|e1], (git_branch r) as [bs|e2]; simpl;
        [discriminate| | |destruct (branches_reject_first x)];
        intros [= <- <-]; right; split; auto.
    + intros [= <- <-]. left. split; reflexivity.
  - intros q status e. unfold commitsPage. fold r.
    destruct (validateRepository r); simpl.
    + unfold getCommitsPaginated, git_log, pageOptions. simpl.
      destruct (log_error r (firstParentOf q) (maxCountOf q + 1) (skipOf q)) as [e'|];
        simpl; [|discriminate].
      intros [= <- <-]. right. split; reflexivity.
    + intros [= <- <-]. left. split; reflexivity.
Qed.

(** X21. The commits route never asks for less than one commit (a missing,
    unreadable or zero [maxCount] stands for 500), so a page it sends
    without a commit marks the end: the log enumeration holds no entry
    after the skipped ones, and [hasMore] is false. *)
Theorem commitsPage_empty_is_end (x : GitCommands) q page :
  commitsPage x q = Sent page →
  commits page = [] →
  length (history (handle x) (firstParentOf q)) ≤ skipOf q ∧ hasMore page = false.
Proof.
  unfold commitsPage. destruct (validateRepository (handle x)); simpl; [|discriminate].
  destruct (getCommitsPaginated _ _) as [res|e] eqn:Hfetch; simpl; [|discriminate].
  intros [= <-] Hempty.
  apply getCommitsPaginated_inv in Hfetch as (_ & Hcommits & _ & Hmore).
  simpl in Hcommits, Hmore. rewrite Hempty in Hcommits.
  symmetry in Hcommits. apply map_eq_nil in Hcommits.
  pose proof (maxCountOf_pos q) as Hpos.
  assert (drop (skipOf q) (history (handle x) (firstParentOf q)) = []) as Hdrop.
  { destruct (drop (skipOf q) (history (handle x) (firstParentOf q))) as [|e es];
      [reflexivity|].
    destruct (maxCountOf q); [lia | discriminate Hcommits]. }
  split.
  - apply (f_equal length) in Hdrop. rewrite length_drop in Hdrop. simpl in Hdrop. lia.
  - rewrite Hmore, Hdrop. reflexivity.
Qed.

Lemma commitsPage_empty_is_end_witness :
  ∃ page,
    commitsPage (SampleStore.commands Samples.emptyRepo)
                {| cq_maxCount := Some 0; cq_skip := None; cq_firstParent := None |} =
      Sent page ∧
    hasMore page = false.
Proof.
  eexists. split; [reflexivity|].
  exact (proj2 (commitsPage_empty_is_end (SampleStore.commands Samples.emptyRepo)
                  {| cq_maxCount := Some 0; cq_skip := None; cq_firstParent := None |}
                  _ eq_refl eq_refl)).
Defined.

End JsonRoutes.

(** * Properties of the client store *)

Section StoreProperties.
Import RepositoryStore StoreActions.
Context `{api : Api} `{locale : Locale}.

(** Unfolds the plumbing of actions. *)
Ltac run :=
  unfold after, effects, loadRepo, loadRepoWithMode, loadMoreCommits, cloneRepo, reset,
    confirmLoadLargeRepo, dismissLargeRepoWarning, seq, get, set, emit, call, ret, failed,
    fields; simpl.

(** An effect that differs from every member of an explicit list is not in it. *)
Ltac absent :=
  let Hin := fresh "Hin" in
  intros Hin;
  repeat (apply elem_of_cons in Hin as [Hin|Hin]; [discriminate Hin|]);
  exact (not_elem_of_nil _ Hin).

(** X10. A repository that the size check reports as large is not loaded:
    [loadRepo] asks for the statistics and nothing else, leaves the
    repository view as it was, shows the warning and keeps the path for
    the confirmation. A stream still in flight is aborted first. *)
Theorem loadRepo_large_waits path stats st :
  api_getRepoStats path = Ok stats →
  isLargeRepo stats = true →
  let st' := after (loadRepo path) st in
  repository st' = repository st ∧
  showLargeRepoWarning st' = true ∧
  pendingPath st' = Some path ∧
  repoStats st' = Some stats ∧
  isLoading st' = false ∧
  error st' = None ∧
  abortStream st' = None ∧
  effects (loadRepo path) st =
    match abortStream st with Some stream => [Abort stream] | None => [] end
    ++ [GetRepoStats path].
Proof.
  intros Hstats Hlarge. run.
  destruct (abortStream st) as [stream|] eqn:Hstream; simpl;
    rewrite Hstats; simpl; rewrite Hlarge; simpl; repeat split; assumption.
Qed.

(** X11. The confirmation dialog: after [loadRepo] has stopped on a large
    repository, [confirmLoadLargeRepo mode] does what
    [loadRepoWithMode path mode] does on that path, unless the path is the
    empty string; after [dismissLargeRepoWarning], or when the pending
    path is absent or empty, it does nothing. *)
Theorem confirmLoadLargeRepo_pending mode :
  (∀ path stats st,
     path ≠ "" →
     api_getRepoStats path = Ok stats → isLargeRepo stats = true →
     (loadRepo path;; confirmLoadLargeRepo mode) st =
     (loadRepo path;; loadRepoWithMode path mode) st) ∧
  (∀ st, (dismissLargeRepoWarning;; confirmLoadLargeRepo mode) st = dismissLargeRepoWarning st) ∧
  (∀ st, pendingPath st = None ∨ pendingPath st = Some "" →
         confirmLoadLargeRepo mode st = ((), st, [])).
Proof.
  split; [|split].
  - intros path stats st Hpath Hstats Hlarge.
    unfold seq at 1 2.
    destruct (loadRepo path st) as [[u st1] fx1] eqn:Hrun.
    assert (pendingPath st1 = Some path) as Hpending.
    { replace st1 with (after (loadRepo path) st) by (unfold after; rewrite Hrun; reflexivity).
      clear Hrun. run. destruct (abortStream st); simpl; rewrite Hstats; simpl; rewrite Hlarge;
        reflexivity. }
    unfold confirmLoadLargeRepo at 1. unfold seq at 1, get at 1. rewrite Hpending.
    assert (Js.truthy path = true) as ->.
    { unfold Js.truthy. apply negb_true_iff, String.eqb_neq. exact Hpath. }
    destruct (loadRepoWithMode path mode st1) as [[u2 st2] fx2]. reflexivity.
  - intros st. reflexivity.
  - intros st [Hnone|Hempty]; unfold confirmLoadLargeRepo, seq, get.
    + rewrite Hnone. reflexivity.
    + rewrite Hempty. reflexivity.
Qed.

(** X12. Whatever starts a new load or resets the store first aborts the
    stream in flight, before any request is sent. [loadRepo] and [reset]
    forget its handle, whatever the outcome of the load is;
    [loadRepoWithMode] replaces it when it opens a new stream and keeps it
    when it loads in full mode. *)
Theorem stream_aborted_first stream st :
  abortStream st = Some stream →
  (∀ path, ∃ fx, effects (loadRepo path) st = Abort stream :: fx ∧ Abort stream ∉ fx) ∧
  (∀ path mode, ∃ fx,
     effects (loadRepoWithMode path mode) st = Abort stream :: fx ∧ Abort stream ∉ fx) ∧
  (effects reset st = [Abort stream] ∧ abortStream (after reset st) = None) ∧
  (∀ path, abortStream (after (loadRepo path) st) = None) ∧
  (∀ path, abortStream (after (loadRepoWithMode path full) st) = Some stream) ∧
  (∀ path mode next,
     isFull mode = false → api_streamRepository path 1000 (isSimplified mode) = Ok next →
     abortStream (after (loadRepoWithMode path mode) st) = Some next).
Proof.
  intros Hstream. repeat split.
  - intros path. run. rewrite Hstream. simpl.
    destruct (api_getRepoStats path) as [stats|e]; simpl.
    + destruct (isLargeRepo stats); simpl.
      * eexists. split; [reflexivity|]. absent.
      * destruct (api_loadRepository path); simpl;
          (eexists; split; [reflexivity|]; absent).
    + eexists. split; [reflexivity|]. absent.
  - intros path mode. run. rewrite Hstream. simpl.
    destruct (isFull mode); simpl.
    + destruct (api_loadRepository path); simpl;
        (eexists; split; [reflexivity|]; absent).
    + destruct (api_streamRepository path 1000 (isSimplified mode)); simpl;
        (eexists; split; [reflexivity|]; absent).
  - run. rewrite Hstream. reflexivity.
  - run. rewrite Hstream. reflexivity.
  - intros path. run. rewrite Hstream. simpl.
    destruct (api_getRepoStats path) as [stats|e]; simpl; [|reflexivity].
    destruct (isLargeRepo stats); simpl; [reflexivity|].
    destruct (api_loadRepository path); reflexivity.
  - intros path. run. rewrite Hstream. simpl.
    destruct (api_loadRepository path); simpl; exact Hstream.
  - intros path mode next Hmode Hnext. run. rewrite Hstream. simpl.
    rewrite Hmode. simpl. rewrite Hnext. reflexivity.
Qed.

(** X13. A full load that succeeds stores the repository with
    [loadedCommitCount] and [totalCommitCount] both equal to the number of
    its commits and ends the loading state; [loadMoreCommits] after it
    sends no request and changes nothing. *)
Theorem full_load_is_complete path repo st :
  api_loadRepository path = Ok repo →
  let st' := after (loadRepoWithMode path full) st in
  repository st' = Some (counted repo) ∧
  isLoading st' = false ∧ error st' = None ∧ loadMode st' = full ∧
  loadMoreCommits st' = ((), st', []).
Proof.
  intros Hload. run. destruct (abortStream st); simpl; rewrite Hload; simpl;
    rewrite bool_decide_eq_true_2 by lia; repeat split.
Qed.

(** X14. A request that fails never takes the repository view away: after a
    failed size check, full load, clone or [loadMoreCommits] the view is
    the one before the action, [error] holds the message of the failure
    and the loading state is over. *)
Theorem failure_keeps_view e st :
  (∀ path, api_getRepoStats path = Throw e →
     let st' := after (loadRepo path) st in
     repository st' = repository st ∧ error st' = Some e ∧ isLoading st' = false) ∧
  (∀ path, api_loadRepository path = Throw e →
     let st' := after (loadRepoWithMode path full) st in
     repository st' = repository st ∧ error st' = Some e ∧ isLoading st' = false) ∧
  (∀ url shallow, api_cloneRepository url (default true shallow) = Throw e →
     let st' := after (cloneRepo url shallow) st in
     repository st' = repository st ∧ error st' = Some e ∧ isLoading st' = false) ∧
  (∀ repo,
     repository st = Some repo → isLoading st = false →
     (Z.of_nat (length (repo_commits repo)) < default 0 (totalCommitCount repo))%Z →
     api_getCommitsPaginated (path repo) (length (repo_commits repo)) 1000
                             (isSimplified (loadMode st)) = Throw e →
     let st' := after loadMoreCommits st in
     repository st' = repository st ∧ error st' = Some e ∧ isLoading st' = false).
Proof.
  split; [|split; [|split]].
  - intros path Hfail. run.
    destruct (abortStream st); simpl; rewrite Hfail; repeat split.
  - intros path Hfail. run.
    destruct (abortStream st); simpl; rewrite Hfail; repeat split.
  - intros url shallow Hfail. run. rewrite Hfail. repeat split.
  - intros repo Hrepo Hidle Hless Hfail. run.
    rewrite Hrepo, Hidle. simpl. rewrite bool_decide_eq_false_2 by lia. simpl.
    rewrite Hfail. simpl. rewrite Hrepo. repeat split.
Qed.

(** X15. [loadMoreCommits] continues where the view ends. When the view
    holds the first [k] commits of the log enumeration of the load mode,
    more are announced, no load is running and the API answers as the
    paginated fetch of the service does, the action asks for the 1000
    entries after the first [k] and the view then holds the first
    [k + 1000] commits, with [loadedCommitCount] counting them and
    [totalCommitCount] as before. *)
Theorem loadMoreCommits_next_block (r : GitRepo) st repo (k : nat) :
  let fp := isSimplified (loadMode st) in
  repository st = Some repo →
  isLoading st = false →
  k ≤ length (history r fp) →
  repo_commits repo = map GitService.toCommit (take k (history r fp)) →
  (Z.of_nat k < default 0 (totalCommitCount repo))%Z →
  api_getCommitsPaginated (path repo) k 1000 fp =
    GitService.getCommitsPaginated r (GitService.pageOptions 1000 k fp) →
  log_error r fp 1001 k = None →
  let st' := after loadMoreCommits st in
  effects loadMoreCommits st = [GetCommitsPaginated (path repo) k 1000 fp] ∧
  isLoading st' = false ∧
  ∃ repo',
    repository st' = Some repo' ∧
    repo_commits repo' = map GitService.toCommit (take (k + 1000) (history r fp)) ∧
    loadedCommitCount repo' = Some (length (repo_commits repo')) ∧
    totalCommitCount repo' = totalCommitCount repo.
Proof.
  intros fp Hrepo Hidle Hk Hview Hless Hapi Hlog.
  assert (length (repo_commits repo) = k) as Hlen
    by (rewrite Hview, length_map, length_take; lia).
  rewrite (getCommitsPaginated_Ok r (GitService.pageOptions 1000 k fp) Hlog) in Hapi.
  simpl in Hapi. run. rewrite Hrepo, Hidle. simpl.
  rewrite Hlen, bool_decide_eq_false_2 by lia. simpl. fold fp. rewrite Hapi. simpl.
  rewrite Hrepo. split; [reflexivity|]. split; [reflexivity|].
  eexists. split; [reflexivity|]. simpl.
  rewrite Hview, <- map_app, take_take_drop, !length_map.
  repeat split. f_equal. rewrite <- take_take_drop, length_app. reflexivity.
Qed.

(** X16. In a mode whose enumeration is shorter than the announced total
    (first-parent mode on a history with merges), [loadMoreCommits] is
    never satisfied: once the whole enumeration is in the view, the action
    still sends its request, receives an empty page, and leaves a view in
    which the same request will be sent again. *)
Theorem loadMoreCommits_never_satisfied (r : GitRepo) st repo :
  let fp := isSimplified (loadMode st) in
  let k := length (history r fp) in
  repository st = Some repo →
  isLoading st = false →
  repo_commits repo = map GitService.toCommit (history r fp) →
  (Z.of_nat k < default 0 (totalCommitCount repo))%Z →
  api_getCommitsPaginated (path repo) k 1000 fp =
    GitService.getCommitsPaginated r (GitService.pageOptions 1000 k fp) →
  log_error r fp 1001 k = None →
  let st' := after loadMoreCommits st in
  effects loadMoreCommits st = [GetCommitsPaginated (path repo) k 1000 fp] ∧
  effects loadMoreCommits st' = [GetCommitsPaginated (path repo) k 1000 fp] ∧
  ∃ repo', repository st' = Some repo' ∧ repo_commits repo' = repo_commits repo.
Proof.
  intros fp k Hrepo Hidle Hview Hless Hapi Hlog.
  assert (length (repo_commits repo) = k) as Hlen by (rewrite Hview, length_map; reflexivity).
  pose proof Hapi as Hanswer.
  rewrite (getCommitsPaginated_Ok r (GitService.pageOptions 1000 k fp) Hlog) in Hanswer.
  simpl in Hanswer. subst k. rewrite drop_all, take_nil in Hanswer. simpl in Hanswer.
  run. rewrite Hrepo, Hidle. simpl.
  rewrite Hlen, bool_decide_eq_false_2 by lia. simpl. fold fp. rewrite Hanswer. simpl.
  rewrite Hrepo. simpl. rewrite app_nil_r, Hlen, bool_decide_eq_false_2 by lia. simpl.
  fold fp. rewrite Hanswer. simpl.
  split; [reflexivity|]. split; [reflexivity|]. eexists. split; reflexivity.
Qed.

(** Chunks touch the view, the progress and the message, nothing else. *)
Lemma consume_chunks_untouched (chunks : list Chunk) s :
  let s' := consume (map ofChunk chunks) s in
  error (store s') = error (store s) ∧
  loadMode (store s') = loadMode (store s) ∧
  isLoading (store s') = isLoading (store s) ∧
  abortStream (store s') = abortStream (store s) ∧
  selectedCommit (store s') = selectedCommit (store s).
Proof.
  revert s. induction chunks as [|c chunks IH]; intros s; simpl; [repeat split|].
  destruct (IH (onCommits (chunk_commits c) (progress c) (chunk_total c) s))
    as (-> & -> & -> & -> & ->). repeat split.
Qed.

(** X17. A streaming load from start to end. [loadRepoWithMode] in a
    streaming mode opens one stream of chunk size 1000, in first-parent
    mode exactly for "simplified", and keeps its handle; when the
    callbacks then receive the metadata, the chunks that [streamCommits]
    yields for that mode and the completion, the view holds the whole log
    enumeration of the mode in order, [loadedCommitCount] is its length,
    and the load is over with no error and no handle left. *)
Theorem streaming_load_end_to_end (r : GitRepo) path mode st next metadata :
  let fp := isSimplified mode in
  isFull mode = false →
  api_streamRepository path 1000 fp = Ok next →
  (∀ n k, log_error r fp n k = None) →
  let st1 := after (loadRepoWithMode path mode) st in
  let chunks := GitService.yielded (GitService.streamCommits r (Some 1000) (Some fp)) in
  let s := consume (Metadata metadata :: map ofChunk chunks ++ [Complete]) (openSession st1) in
  (∃ fx, effects (loadRepoWithMode path mode) st = fx ++ [StreamRepository path 1000 fp] ∧
         ∀ e, e ∈ fx → ∃ stream, e = Abort stream) ∧
  abortStream st1 = Some next ∧ isLoading st1 = true ∧
  isLoading (store s) = false ∧ abortStream (store s) = None ∧
  error (store s) = None ∧ loadMode (store s) = mode ∧
  ∃ repo,
    repository (store s) = Some repo ∧
    repo_commits repo = map GitService.toCommit (history r fp) ∧
    loadedCommitCount repo = Some (length (history r fp)).
Proof.
  intros fp Hmode Hopen Hlog st1 chunks s.
  assert (abortStream st1 = Some next ∧ isLoading st1 = true ∧ error st1 = None ∧
          loadMode st1 = mode) as (Hnext & Hloading & Herror & Hloadmode).
  { subst st1. run. destruct (abortStream st); simpl; rewrite Hmode; simpl;
      fold fp; rewrite Hopen; repeat split. }
  split.
  { run. destruct (abortStream st) as [stream|]; simpl; rewrite Hmode; simpl;
      fold fp; rewrite Hopen; simpl.
    - exists [Abort stream]. split; [reflexivity|].
      intros e ->%list_elem_of_singleton. eauto.
    - exists []. split; [reflexivity|]. intros e []%not_elem_of_nil. }
  split; [exact Hnext|]. split; [exact Hloading|].
  subst s. rewrite app_comm_cons, consume_app.
  set (s1 := consume (Metadata metadata :: map ofChunk chunks) (openSession st1)).
  assert (error (store s1) = error st1 ∧ loadMode (store s1) = loadMode st1) as [He Hm].
  { subst s1. simpl.
    destruct (consume_chunks_untouched chunks (onMetadata metadata (openSession st1)))
      as (-> & -> & _). split; reflexivity. }
  destruct (consume_chunks_merged chunks _ _ (onMetadata_merged metadata st1))
    as (_ & repo & Hrepo & Hcommits & Hcount).
  simpl. fold s1. rewrite He, Hm, Herror, Hloadmode.
  repeat split. exists repo. simpl in Hcommits, Hcount.
  pose proof (streamCommits_delivers_history_aux r fp Hlog) as Hdeliver.
  split; [exact Hrepo|]. subst chunks. rewrite Hcommits, Hcount, Hdeliver, length_map. auto.
Qed.

Lemma consume_chunks_view (chunks : list Chunk) s repo :
  repository (store s) = Some repo →
  ∃ repo',
    repository (store (consume (map ofChunk chunks) s)) = Some repo' ∧
    path repo' = path repo ∧ name repo' = name repo ∧
    currentBranch repo' = currentBranch repo ∧
    branches repo' = branches repo ∧ tags repo' = tags repo ∧ stats repo' = stats repo.
Proof.
  revert s repo. induction chunks as [|c chunks IH]; intros s repo Hrepo; simpl.
  - exists repo. repeat split. exact Hrepo.
  - edestruct (IH (onCommits (chunk_commits c) (progress c) (chunk_total c) s))
      as (repo' & Hrepo' & Hfields).
    { simpl. rewrite Hrepo. reflexivity. }
    exists repo'. split; [exact Hrepo' | exact Hfields].
Qed.

(** X18. The two ways of loading agree. For a repository whose commands
    succeed, the full load through [getRepository] and the streaming load
    in "paginated" mode, once its metadata, its chunks and its completion
    have arrived, leave the same path, name, current branch, branches,
    tags, commits and [loadedCommitCount] in the view, and both end the
    loading state without an error. *)
Theorem load_modes_agree (x : GitCommands) path st md next :
  let r := handle x in
  log_full x = Ok (history r false) →
  (∀ n k, log_error r false n k = None) →
  GitService.getRepositoryMetadata r = Ok md →
  api_loadRepository path = FullLoad.getRepository x →
  api_streamRepository path 1000 false = Ok next →
  let chunks := GitService.yielded (GitService.streamCommits r (Some 1000) (Some false)) in
  let loaded := after (loadRepoWithMode path full) st in
  let streamed :=
    store (consume (Metadata md :: map ofChunk chunks ++ [Complete])
                   (openSession (after (loadRepoWithMode path paginated) st))) in
  ∃ a b,
    repository loaded = Some a ∧ repository streamed = Some b ∧
    RepositoryStore.path a = RepositoryStore.path b ∧ name a = name b ∧
    currentBranch a = currentBranch b ∧ repo_commits a = repo_commits b ∧
    branches a = branches b ∧ tags a = tags b ∧
    loadedCommitCount a = loadedCommitCount b ∧
    isLoading loaded = false ∧ isLoading streamed = false ∧
    error loaded = None ∧ error streamed = None.
Proof.
  intros r Hfull Hlog Hmd Hload Hopen chunks loaded streamed.
  unfold GitService.getRepositoryMetadata in Hmd.
  destruct (GitService.getBranches r) as [bs|e] eqn:Hbs; [|discriminate Hmd].
  simpl in Hmd. injection Hmd as <-.
  assert (FullLoad.getRepository x =
          Ok {| RepositoryStore.path := repoPath r;
                name := GitService.repoName (repoPath r);
                currentBranch := GitService.getCurrentBranch r;
                repo_commits := map GitService.toCommit (history r false);
                branches := bs;
                tags := GitService.getTags r;
                stats := None;
                loadedCommitCount := None;
                totalCommitCount := None |}) as Hrepo.
  { unfold FullLoad.getRepository, FullLoad.getCommits. fold r. rewrite Hfull, Hbs.
    reflexivity. }
  rewrite Hrepo in Hload.
  set (st1 := after (loadRepoWithMode path paginated) st) in *.
  assert (error st1 = None) as Herror.
  { subst st1. run. destruct (abortStream st); simpl; rewrite Hopen; reflexivity. }
  set (m := {| md_path := repoPath r; md_name := GitService.repoName (repoPath r);
               md_currentBranch := GitService.getCurrentBranch r; md_branches := bs;
               md_tags := GitService.getTags r; md_stats := GitService.getRepoStats r |}) in *.
  destruct (consume_chunks_merged chunks _ _ (onMetadata_merged m st1))
    as (_ & b & Hb & Hcommits & Hcount).
  destruct (consume_chunks_view chunks (onMetadata m (openSession st1)) _ eq_refl)
    as (b' & Hb' & Hpath & Hname & Hbranch & Hbranches & Htags & _).
  rewrite Hb in Hb'. injection Hb' as <-.
  destruct (consume_chunks_untouched chunks (onMetadata m (openSession st1)))
    as (He & _).
  pose proof (streamCommits_delivers_history_aux r false Hlog) as Hdeliver.
  fold chunks in Hdeliver. simpl in Hcommits, Hcount, Hpath, Hname, Hbranch, Hbranches, Htags.
  eexists. exists b.
  split.
  { subst loaded. run. destruct (abortStream st); simpl; rewrite Hload; reflexivity. }
  assert (streamed = store (onComplete (consume (map ofChunk chunks)
                                                (onMetadata m (openSession st1))))) as ->.
  { subst streamed. rewrite app_comm_cons, consume_app. reflexivity. }
  split; [exact Hb|]. simpl.
  rewrite Hpath, Hname, Hbranch, Hbranches, Htags, Hcommits, Hcount, Hdeliver.
  rewrite He. simpl. rewrite Herror.
  repeat split.
  - subst loaded. run. destruct (abortStream st); simpl; rewrite Hload; reflexivity.
  - subst loaded. run. destruct (abortStream st); simpl; rewrite Hload; reflexivity.
Qed.


(** X23. A stream that [cloneRepo] has left running writes into the view
    of the clone: the next chunk replaces the commits of the cloned
    repository by the commits the stream has gathered, under the path and
    the name of the clone. *)
Theorem clone_during_stream_mixes url shallow repo stats s commits progress total :
  api_cloneRepository url (default true shallow) = Ok repo →
  api_getRepoStats (RepositoryStore.path repo) = Ok stats →
  isLargeRepo stats = false →
  let st' := after (cloneRepo url shallow) (store s) in
  let s' := onCommits commits progress total {| allCommits := allCommits s; store := st' |} in
  ∃ view,
    repository (store s') = Some view ∧
    RepositoryStore.path view = RepositoryStore.path repo ∧ name view = name repo ∧
    repo_commits view = allCommits s ++ commits ∧
    totalCommitCount view = Some total.
Proof.
  intros Hclone Hstats Hsmall st' s'. subst s' st'. run.
  rewrite Hclone. simpl. rewrite Hstats. simpl. rewrite Hsmall. simpl.
  eexists. split; [reflexivity|]. repeat split.
Qed.


End StoreProperties.


Section StoreWitnesses.
Import RepositoryStore StoreActions.

Lemma loadRepo_large_waits_witness :
  let api := SampleStore.direct (SampleStore.commands SampleStore.largeRepo) in
  effects (loadRepo "/srv/repos/big") SampleStore.streaming = [Abort 3; GetRepoStats "/srv/repos/big"] ∧
  pendingPath (after (loadRepo "/srv/repos/big") SampleStore.streaming) = Some "/srv/repos/big".
Proof.
  intros api.
  destruct (loadRepo_large_waits (api := api) "/srv/repos/big" _ SampleStore.streaming
              eq_refl eq_refl) as (_ & _ & Hpending & _ & _ & _ & _ & Hfx).
  split; [exact Hfx | exact Hpending].
Defined.

Lemma stream_aborted_first_witness :
  let api := SampleStore.offline in
  effects reset SampleStore.streaming = [Abort 3] ∧
  abortStream (after (loadRepo "/srv/repos/sample") SampleStore.streaming) = None.
Proof.
  intros api.
  destruct (stream_aborted_first (api := api) 3 SampleStore.streaming eq_refl)
    as (_ & _ & [Hreset _] & Hforgot & _).
  split; [exact Hreset | exact (Hforgot "/srv/repos/sample")].
Defined.

Lemma full_load_is_complete_witness :
  let api := SampleStore.direct (SampleStore.commands Samples.mergeRepo) in
  ∃ repo,
    repository (after (loadRepoWithMode "/srv/repos/sample" full) initial) = Some repo ∧
    loadedCommitCount repo = Some 3 ∧ totalCommitCount repo = Some 3%Z.
Proof.
  intros api. eexists.
  split; [apply (full_load_is_complete (api := api) "/srv/repos/sample" _ initial eq_refl)|].
  split; reflexivity.
Defined.

Lemma loadMoreCommits_next_block_witness :
  let api := SampleStore.direct (SampleStore.commands Samples.mergeRepo) in
  ∃ repo,
    repository (after loadMoreCommits (SampleStore.viewing 1 3 full)) = Some repo ∧
    map hash (repo_commits repo) = ["m"; "b"; "a"].
Proof.
  intros api.
  destruct (loadMoreCommits_next_block (api := api) Samples.mergeRepo
              (SampleStore.viewing 1 3 full) _ 1 eq_refl eq_refl
              ltac:(simpl; lia) eq_refl ltac:(simpl; lia) eq_refl eq_refl)
    as (_ & _ & repo & Hrepo & Hcommits & _).
  exists repo. split; [exact Hrepo|]. rewrite Hcommits. reflexivity.
Defined.

Lemma loadMoreCommits_never_satisfied_witness :
  let api := SampleStore.direct (SampleStore.commands Samples.mergeRepo) in
  effects loadMoreCommits (after loadMoreCommits (SampleStore.viewing 2 3 simplified)) =
    [GetCommitsPaginated "/srv/repos/sample" 2 1000 true].
Proof.
  intros api.
  exact (proj1 (proj2 (loadMoreCommits_never_satisfied (api := api) Samples.mergeRepo
                         (SampleStore.viewing 2 3 simplified) _ eq_refl eq_refl eq_refl
                         ltac:(simpl; lia) eq_refl eq_refl))).
Defined.

Lemma streaming_load_end_to_end_witness :
  let api := SampleStore.direct (SampleStore.commands Samples.mergeRepo) in
  let locale := SampleStore.plain in
  let metadata := SampleStore.metadataOf Samples.mergeRepo in
  let st1 := after (loadRepoWithMode "/srv/repos/sample" simplified) initial in
  let chunks :=
    GitService.yielded (GitService.streamCommits Samples.mergeRepo (Some 1000) (Some true)) in
  ∃ repo,
    repository (store (consume (Metadata metadata :: map ofChunk chunks ++ [Complete])
                               (openSession st1))) = Some repo ∧
    map hash (repo_commits repo) = ["m"; "a"].
Proof.
  intros api locale metadata st1 chunks.
  destruct (streaming_load_end_to_end (api := api) (locale := locale) Samples.mergeRepo "/srv/repos/sample"
              simplified initial 7 metadata eq_refl eq_refl (λ _ _, eq_refl))
    as (_ & _ & _ & _ & _ & _ & _ & repo & Hrepo & Hcommits & _).
  exists repo. split; [exact Hrepo|]. rewrite Hcommits. reflexivity.
Defined.

Lemma load_modes_agree_witness :
  let api := SampleStore.direct (SampleStore.commands Samples.mergeRepo) in
  let locale := SampleStore.plain in
  let chunks :=
    GitService.yielded (GitService.streamCommits Samples.mergeRepo (Some 1000) (Some false)) in
  ∃ a b,
    repository (after (loadRepoWithMode "/srv/repos/sample" full) initial) = Some a ∧
    repository
      (store (consume (Metadata (SampleStore.metadataOf Samples.mergeRepo)
                         :: map ofChunk chunks ++ [Complete])
                      (openSession (after (loadRepoWithMode "/srv/repos/sample" paginated)
                                          initial)))) = Some b ∧
    map hash (repo_commits a) = ["m"; "b"; "a"] ∧ repo_commits a = repo_commits b.
Proof.
  intros api locale chunks.
  destruct (load_modes_agree (api := api) (locale := locale)
              (SampleStore.commands Samples.mergeRepo) "/srv/repos/sample" initial
              (SampleStore.metadataOf Samples.mergeRepo) 7
              eq_refl (λ _ _, eq_refl) eq_refl eq_refl eq_refl)
    as (a & b & Ha & Hb & _ & _ & _ & Hcommits & _).
  exists a, b. split; [exact Ha|]. split; [exact Hb|]. split; [|exact Hcommits].
  injection Ha as <-. reflexivity.
Defined.


Lemma clone_during_stream_mixes_witness :
  let api := SampleStore.direct (SampleStore.commands Samples.mergeRepo) in
  let locale := SampleStore.plain in
  let st' := after (cloneRepo "https://example.org/sample.git" None) SampleStore.streaming in
  ∃ view,
    repository (store (onCommits [] 100 0 {| allCommits := []; store := st' |})) = Some view ∧
    RepositoryStore.path view = "/srv/repos/sample" ∧ repo_commits view = [].
Proof.
  intros api locale st'.
  destruct (clone_during_stream_mixes (api := api) (locale := locale)
              "https://example.org/sample.git" None _ _ (openSession SampleStore.streaming)
              [] 100%float 0%Z eq_refl eq_refl eq_refl)
    as (view & Hview & Hpath & _ & Hcommits & _).
  exists view. split; [exact Hview|]. split; [exact Hpath | exact Hcommits].
Defined.

End StoreWitnesses.

(** * Properties of the graph canvas *)

Section Canvas.
Import LayoutEngine GraphCanvas.
Context `{collaborators : Collaborators} `{caseMapping : CaseMapping}.

Lemma filteredCommits_sub commits query graphSettings c :
  c ∈ filteredCommits (Some commits) query graphSettings →
  c ∈ commits ∧ (hideMergeCommits graphSettings = true → length (parents c) ≤ 1).
Proof.
  unfold filteredCommits.
  destruct (Js.truthy (Js.trim query)), (hideMergeCommits graphSettings);
    rewrite ?list_elem_of_filter; intuition (try discriminate).
Qed.

(** X25. The canvas lays the graph out once, with an empty highlight set,
    and lays selection and highlighting over the nodes afterwards. What it
    shows is what a layout computed with the real highlight set gives:
    the same nodes, flags included, and the same edges; and a node is
    selected exactly when its commit has the hash of the selected one. *)
Theorem canvas_overlay_is_layout filtered graphSettings selectedCommit
    (highlighted : gset string) :
  let L := layoutCommitGraph filtered
             {| direction := TB; nodeSpacing := 40; rankSpacing := 80 |}
             {| compactMode := canvas_compactMode graphSettings;
                colorByAuthor := canvas_colorByAuthor graphSettings;
                highlightedCommits := highlighted |} in
  let memo := layouted filtered graphSettings in
  let shown := nodesWithState (nodes memo) selectedCommit highlighted in
  map canvas_node shown = nodes L ∧
  edges memo = edges L ∧
  map selected shown = map (λ c, isSelected selectedCommit (hash c)) filtered.
Proof.
  intros L memo shown. subst L memo shown.
  unfold layouted, nodesWithState, layoutCommitGraph. simpl.
  case_bool_decide as Hlen; [repeat split; destruct filtered; try discriminate Hlen;
                             reflexivity|].
  match goal with |- context [foldl ?f ?a filtered] => destruct (foldl f a filtered) end.
  simpl. rewrite !map_map. simpl. repeat split.
Qed.

(** X26. With merge commits hidden, whatever the search query is, no
    commit on the canvas has more than one parent and no edge of the
    canvas is a merge edge. *)
Theorem hidden_merges_no_merge_edge commits query (compact byAuthor : bool) :
  let graphSettings :=
    {| hideMergeCommits := true; canvas_compactMode := compact;
       canvas_colorByAuthor := byAuthor |} in
  let filtered := filteredCommits commits query graphSettings in
  Forall (λ c, length (parents c) ≤ 1) filtered ∧
  Forall (λ e, isMerge (edge_data e) = false) (edges (layouted filtered graphSettings)).
Proof.
  intros graphSettings filtered.
  assert (Forall (λ c, length (parents c) ≤ 1) filtered) as Hsingle.
  { apply Forall_forall. intros c Hc. subst filtered.
    destruct commits as [commits|]; [|inversion Hc].
    apply filteredCommits_sub in Hc as [_ Hc]. exact (Hc eq_refl). }
  split; [exact Hsingle|].
  unfold layouted. case_bool_decide; [constructor|].
  rewrite layout_edges. apply Forall_forall. intros e He.
  apply list_elem_of_In, in_flat_map in He as (c & Hc & He).
  apply list_elem_of_In in Hc, He.
  apply elem_of_parentEdges in He as (i & p & Hp & _ & ->).
  rewrite Forall_forall in Hsingle. specialize (Hsingle c Hc).
  apply lookup_lt_Some in Hp. simpl. apply bool_decide_eq_false_2. lia.
Qed.

(** X27. Every node of the canvas answers a click. The click finds a
    commit of the repository with the hash of the node and selects it, or
    clears the selection when a commit with that hash is selected already;
    a second click on the node always clears the selection. *)
Theorem canvas_click_toggles commits query graphSettings selectedCommit :
  let filtered := filteredCommits (Some commits) query graphSettings in
  Forall (λ n,
            ∃ c, c ∈ commits ∧ hash c = node_id n ∧
                 onNodeClick (Some commits) selectedCommit (node_id n) =
                   Some (if isSelected selectedCommit (node_id n) then None else Some c) ∧
                 onNodeClick (Some commits) (Some c) (node_id n) = Some None)
         (nodes (layouted filtered graphSettings)).
Proof.
  intros filtered. apply Forall_forall. intros n Hn.
  assert (node_id n ∈ map hash commits) as Hid.
  { unfold layouted in Hn. case_bool_decide; [inversion Hn|].
    apply (list_elem_of_fmap_2 node_id) in Hn.
    change (node_id <$> ?l) with (map node_id l) in Hn.
    rewrite (proj1 (layout_nodes_commits _ _ _)) in Hn.
    apply list_elem_of_In, in_map_iff in Hn as (c & Hhash & Hc).
    apply list_elem_of_In, filteredCommits_sub in Hc as [Hc _].
    apply list_elem_of_In, in_map_iff. exists c. split; [exact Hhash|].
    apply list_elem_of_In. exact Hc. }
  apply list_elem_of_In, in_map_iff in Hid as (c0 & Hhash0 & Hc0).
  unfold onNodeClick.
  destruct (find (λ c, String.eqb (hash c) (node_id n)) commits) as [c|] eqn:Hfind.
  - apply find_some in Hfind as [Hc Heq]. apply String.eqb_eq in Heq.
    exists c. split; [apply list_elem_of_In; exact Hc|]. split; [exact Heq|].
    rewrite Heq. split; [reflexivity|].
    unfold isSelected. rewrite Heq, String.eqb_refl. reflexivity.
  - exfalso. pose proof (find_none _ _ Hfind c0 Hc0) as Hno. simpl in Hno.
    rewrite Hhash0, String.eqb_refl in Hno. discriminate Hno.
Qed.

(** Hiding the merge of the sample history leaves the side commit and the
    root, joined by one edge: the commit that the merge was is not bridged. *)
Example canvas_hides_sample_merge query :
  Js.trim query = "" →
  let graphSettings :=
    {| hideMergeCommits := true; canvas_compactMode := false;
       canvas_colorByAuthor := false |} in
  let commits := map GitService.toCommit (history Samples.mergeRepo false) in
  let filtered := filteredCommits (Some commits) query graphSettings in
  map hash filtered = ["b"; "a"] ∧
  map ends (edges (layouted filtered graphSettings)) = [("b", "a")].
Proof.
  intros Hblank graphSettings commits filtered.
  assert (filtered = filter (λ c, length (parents c) ≤ 1) commits) as ->.
  { subst filtered. unfold filteredCommits. rewrite Hblank. reflexivity. }
  split; [reflexivity|]. unfold layouted.
  case_bool_decide as Hlen; [discriminate Hlen|]. rewrite layout_edges. reflexivity.
Qed.

End Canvas.

(** * Properties of the activity heatmap *)

Section Heatmap.
Import ActivityHeatmap.

Lemma StronglySorted_snoc_lt (l : list nat) (n : nat) :
  StronglySorted lt l → Forall (λ k, k < n) l → StronglySorted lt (l ++ [n]).
Proof.
  induction 1 as [|a l Hl IH Ha]; intros Hall; simpl.
  - repeat constructor.
  - inversion Hall; subst. constructor; [apply IH; assumption|].
    apply Forall_app. split; [exact Ha | repeat constructor; assumption].
Qed.

Lemma foldr_add_snoc (l : list Z) (z : Z) :
  foldr Z.add 0%Z (l ++ [z]) = (foldr Z.add 0%Z l + z)%Z.
Proof. induction l as [|a l IH]; simpl; [lia | rewrite IH; lia]. Qed.

Lemma step_invariant m seen s d :
  invariant m seen s → invariant m (seen ++ [d]) (step m s d).
Proof.
  intros (Hcells & Hfull & Hshort & Hindex & Hsorted & Hle & Hlt & Htotal & Hpos & Hmax).
  assert (map (cellOf m) (seen ++ [d]) =
          concat (weeks s) ++ currentWeek s ++ [cellOf m d]) as Hcells'.
  { rewrite map_app, <- Hcells, <- app_assoc. reflexivity. }
  assert (Forall (λ d', (countOf m d' ≤ Z.max (maxCount s) (countOf m d))%Z) (seen ++ [d]))
    as Hmax'.
  { apply Forall_app. split; [|repeat constructor; lia].
    eapply Forall_impl; [exact Hmax|]. simpl. intros; lia. }
  assert (foldr Z.add 0%Z (map (countOf m) (seen ++ [d])) = (total s + countOf m d)%Z)
    as Htotal'.
  { rewrite map_app. cbn [map]. rewrite foldr_add_snoc, Htotal. reflexivity. }
  set (labelled := negb (bool_decide (currentMonth s = Some (monthIndex d)))
                   && bool_decide (length (currentWeek s) = 0)).
  set (labels := if labelled
                 then monthLabels s ++ [ {| label_month := default "" (MONTHS !! monthIndex d);
                                            label_weekIndex := weekIndex s |} ]
                 else monthLabels s).
  assert (StronglySorted lt (map label_weekIndex labels) ∧
          Forall (λ label, label_weekIndex label ≤ weekIndex s) labels) as [Hsorted' Hle'].
  { subst labels. destruct labelled eqn:Hlab; [|split; assumption].
    apply andb_true_iff in Hlab as [_ Hempty]. apply bool_decide_eq_true in Hempty.
    apply length_zero_iff_nil in Hempty. specialize (Hlt Hempty). split.
    - rewrite map_app. apply StronglySorted_snoc_lt; [exact Hsorted|].
      apply Forall_fmap. exact Hlt.
    - apply Forall_app. split; [exact Hle | repeat constructor]. }
  unfold step. fold (cellOf m d). fold labelled. fold labels.
  case_bool_decide as Hseven; unfold invariant; simpl.
  - rewrite concat_app. simpl. rewrite app_nil_r, app_nil_r.
    repeat split; try assumption; try (symmetry; assumption); try lia.
    + apply Forall_app. split; [exact Hfull | repeat constructor; exact Hseven].
    + rewrite length_app. simpl. lia.
    + eapply Forall_impl; [exact Hle'|]. simpl. intros; lia.
    + intros _. eapply Forall_impl; [exact Hle'|]. simpl. intros; lia.
  - repeat split; try assumption; try (symmetry; assumption); try lia.
    + rewrite length_app in *. simpl in *. lia.
    + intros Hnil. destruct (currentWeek s); discriminate Hnil.
Qed.

Lemma loop_invariant m days :
  invariant m days (foldl (step m) start days).
Proof.
  induction days as [|d days IH] using rev_ind.
  - unfold invariant. simpl. repeat split; try constructor; try lia.
  - rewrite foldl_app. simpl. apply step_invariant, IH.
Qed.

(** The map keeps, for every date, the count of the last entry with that date. *)
Lemma activityMapOf_last (activity : list ActivityDay) (date : string) :
  activityMapOf activity !! date =
    ad_count <$> last (filter (λ day, ad_date day = date) activity).
Proof.
  unfold activityMapOf. induction activity as [|day activity IH] using rev_ind.
  - reflexivity.
  - rewrite foldl_app, filter_app. simpl. rewrite filter_cons, filter_nil.
    destruct (decide (ad_date day = date)) as [<-|Hne].
    + rewrite lookup_insert_eq, last_snoc. reflexivity.
    + rewrite lookup_insert_ne by exact Hne. rewrite app_nil_r. exact IH.
Qed.

Lemma grid_cells (activity : list ActivityDay) (days : list CalendarDay) :
  concat (grid_weeks (grid activity days)) = map (cellOf (activityMapOf activity)) days.
Proof.
  unfold grid. simpl.
  destruct (loop_invariant (activityMapOf activity) days) as (Hcells & _).
  case_bool_decide as Hrest.
  - rewrite concat_app. simpl. rewrite app_nil_r. exact Hcells.
  - destruct (currentWeek _); [|simpl in Hrest; lia].
    rewrite app_nil_r in Hcells. exact Hcells.
Qed.

(** X29. The grid of the heatmap. The weeks, put end to end, are the days
    the loop has visited, in order, each with the count recorded for its
    date (0 when none is); every week but the last holds seven days, the
    last between one and seven, so [n] days fill [ceil(n / 7)] weeks. The
    month labels carry strictly increasing week indices, each the index of
    a week of the grid. *)
Theorem heatmap_weeks (activity : list ActivityDay) (days : list CalendarDay) :
  let g := grid activity days in
  concat (grid_weeks g) = map (cellOf (activityMapOf activity)) days ∧
  Forall (λ week, 0 < length week ≤ 7) (grid_weeks g) ∧
  (∀ i week, grid_weeks g !! i = Some week → S i < length (grid_weeks g) → length week = 7) ∧
  length (grid_weeks g) = (length days + 6) / 7 ∧
  StronglySorted lt (map label_weekIndex (grid_monthLabels g)) ∧
  Forall (λ label, label_weekIndex label < length (grid_weeks g)) (grid_monthLabels g).
Proof.
  intros g. subst g. unfold grid. simpl.
  set (m := activityMapOf activity).
  destruct (loop_invariant m days)
    as (Hcells & Hfull & Hshort & Hindex & Hsorted & Hle & Hlt & _).
  set (s := foldl (step m) start days) in *.
  assert (length days = 7 * length (weeks s) + length (currentWeek s)) as Hdays.
  { rewrite <- (length_map (cellOf m)), <- Hcells, length_app. f_equal.
    clear -Hfull. induction Hfull as [|w ws Hw _ IH]; simpl; [reflexivity|].
    rewrite length_app, IH, Hw. lia. }
  case_bool_decide as Hrest.
  - rewrite concat_app. simpl. rewrite app_nil_r.
    split; [exact Hcells|]. split; [|split; [|split; [|split]]].
    + apply Forall_app. split; [|apply Forall_singleton; lia].
      eapply Forall_impl; [exact Hfull|]. simpl. intros; lia.
    + intros i week Hweek Hi. rewrite length_app in Hi. simpl in Hi.
      rewrite lookup_app_l in Hweek by lia.
      rewrite Forall_forall in Hfull. apply Hfull.
      eapply list_elem_of_lookup_2, Hweek.
    + rewrite length_app. change (length [currentWeek s]) with 1. rewrite Hdays.
      apply (Nat.div_unique _ 7 _ (length (currentWeek s) - 1)); lia.
    + exact Hsorted.
    + rewrite length_app. simpl. eapply Forall_impl; [exact Hle|]. simpl. intros; lia.
  - assert (currentWeek s = []) as Hnil.
    { destruct (currentWeek s); [reflexivity | simpl in Hrest; lia]. }
    rewrite Hnil, app_nil_r in Hcells. rewrite Hnil in Hdays. simpl in Hdays.
    split; [exact Hcells|]. split; [|split; [|split; [|split]]].
    + eapply Forall_impl; [exact Hfull|]. simpl. intros; lia.
    + intros i week Hweek _. rewrite Forall_forall in Hfull. apply Hfull.
      eapply list_elem_of_lookup_2, Hweek.
    + rewrite Hdays. apply (Nat.div_unique _ 7 _ 6); lia.
    + exact Hsorted.
    + rewrite <- Hindex. exact (Hlt Hnil).
Qed.

(** X30. The counts of the heatmap. [maxCount] is at least 1 and at least
    the count of every cell, so the ratio [count / maxCount] that colours a
    cell never divides by zero and never exceeds 1; [totalCommits] is the
    sum of the counts of the cells; and when the activity names a date
    more than once, the cell shows the count of the last entry. *)
Theorem heatmap_counts (activity : list ActivityDay) (days : list CalendarDay) :
  let g := grid activity days in
  (1 ≤ grid_maxCount g)%Z ∧
  Forall (Forall (λ cell, (cell_count cell ≤ grid_maxCount g)%Z)) (grid_weeks g) ∧
  totalCommits g = foldr Z.add 0%Z (map cell_count (concat (grid_weeks g))) ∧
  Forall (Forall (λ cell,
            cell_count cell =
              default 0%Z (ad_count <$> last (filter (λ day, ad_date day = cell_date cell)
                                                      activity))))
         (grid_weeks g).
Proof.
  intros g.
  pose proof (grid_cells activity days) as Hcells. fold g in Hcells.
  set (m := activityMapOf activity) in *.
  destruct (loop_invariant m days) as (_ & _ & _ & _ & _ & _ & _ & Htotal & Hpos & Hmax).
  assert (grid_maxCount g = if (maxCount (foldl (step m) start days) =? 0)%Z then 1%Z
                            else maxCount (foldl (step m) start days)) as Hg by reflexivity.
  assert (∀ P : Cell → Prop, Forall P (concat (grid_weeks g)) → Forall (Forall P) (grid_weeks g))
    as Hweeks.
  { intros P. generalize (grid_weeks g). clear.
    induction l as [|w ws IH]; simpl; [constructor|].
    intros [Hw Hws]%Forall_app. constructor; [exact Hw | exact (IH Hws)]. }
  split; [|split; [|split]].
  - rewrite Hg. destruct (Z.eqb_spec (maxCount (foldl (step m) start days)) 0); lia.
  - apply Hweeks. rewrite Hcells. change (map ?f ?l) with (f <$> l). apply Forall_fmap.
    eapply Forall_impl; [exact Hmax|]. intros d Hd. unfold compose.
    change (cell_count (cellOf m d)) with (countOf m d). cbv beta in Hd. rewrite Hg.
    destruct (Z.eqb_spec (maxCount (foldl (step m) start days)) 0); lia.
  - rewrite Hcells, map_map. exact Htotal.
  - apply Hweeks. rewrite Hcells. change (map ?f ?l) with (f <$> l). apply Forall_fmap.
    apply Forall_forall. intros d _. simpl. unfold countOf, m.
    rewrite activityMapOf_last. reflexivity.
Qed.

(** The year the component shows, 365 to 371 days from a Sunday on, always
    fills 53 weeks. *)
Example heatmap_year (activity : list ActivityDay) (days : list CalendarDay) :
  365 ≤ length days ≤ 371 → length (grid_weeks (grid activity days)) = 53.
Proof.
  intros Hdays. unfold grid. simpl.
  destruct (loop_invariant (activityMapOf activity) days)
    as (Hcells & Hfull & Hshort & _).
  set (s := foldl (step (activityMapOf activity)) start days) in *.
  assert (length days = 7 * length (weeks s) + length (currentWeek s)) as Hlen.
  { rewrite <- (length_map (cellOf (activityMapOf activity))), <- Hcells, length_app. f_equal.
    clear -Hfull. induction Hfull as [|w ws Hw _ IH]; simpl; [reflexivity|].
    rewrite length_app, IH, Hw. lia. }
  case_bool_decide; [rewrite length_app; simpl|]; lia.
Qed.

End Heatmap.
